(** * tlilcoatl: a shallow embedding of [main.py]

    The interpreter of [main.py] (tokenizer, reader, environment chain,
    evaluator and a part of the built-in table) as Rocq functions, and the
    properties of the specification proved or refuted on them.

    Python objects that are mutated and shared are kept in a store:
    every [list] object and every [Env] object lives at a location, and a
    value refers to it by that location, so that the in-place swap of
    [eval] and the by-reference capture of environments are visible.

    Recursion of the Python functions is bounded by a [fuel] argument that
    stands for the depth of the host call stack; running out of it is the
    outcome [OutOfFuel].

    [read_program_from_file] and [main] only read a file and print; they
    are not embedded. *)

From Stdlib Require Import ZArith Ascii String List Lia SpecFloat.
From stdpp Require Import base option list gmap strings.

Local Open Scope string_scope.

(** ** Data model *)

(** A location in one of the two stores. *)
Definition loc := nat.

(** The entries of [standard_env] that are embedded.  [append] is the same
    host function as [add] ([op.add]).  The entries that are not embedded are
    those of [vars(math)], the comparisons, [=], [eq?], [power], [max],
    [min], [print] and [round]. *)
Inductive builtin :=
| BAdd | BSub | BMul | BDiv | BBegin | BFst | BCons | BLength | BList
| BNot | BNull | BNumber | BProcedure | BSymbol.

(** Python values.  [Symbol = str], [Number = (int, float)], [List = list];
    [bool] and [None] are produced by built-ins and by [define]/[set!];
    a [Procedure] holds [parms], [body] and a reference to its [env].  A
    [float] is a binary64 number of [SpecFloat].  The identity of a number,
    of a [str] and of a procedure is not modelled: no embedded operation
    observes it. *)
Inductive value :=
| VInt (z : Z)
| VFloat (f : spec_float)
| VBool (b : bool)
| VNone
| VStr (s : string)
| VList (l : loc)
| VProc (parms body : value) (env : loc)
| VBuiltin (b : builtin).

(** [class Env(dict)]: a dict together with the attribute [outer].  Only
    [str] keys are embedded (see [hash_key]). *)
Record Env := MkEnv { table : gmap string value; outer : option loc }.

(** The two stores. *)
Record state := State { lists : list (list value); envs : list Env }.

(** Host exceptions raised by the code. *)
Inductive exn :=
| SyntaxError (msg : string)
| IndexError
| ValueError
| TypeError
| AttributeError
| ZeroDivisionError
| OverflowError.

(** What a call does: it returns, raises, exceeds the recursion budget,
    follows a location that is not in the store ([Dangling], which no run
    from [parse] reaches), or leaves the embedded fragment ([Unmodelled]:
    a hashable key that is not a [str]). *)
Inductive outcome (A : Type) :=
| Ok (a : A)
| Raise (e : exn)
| OutOfFuel
| Dangling
| Unmodelled.
Arguments Ok {A} a.
Arguments Raise {A} e.
Arguments OutOfFuel {A}.
Arguments Dangling {A}.
Arguments Unmodelled {A}.

(** ** A state and exception monad *)

Definition M (A : Type) : Type := state -> outcome A * state.

Definition ret {A} (a : A) : M A := fun st => (Ok a, st).
Definition raise {A} (e : exn) : M A := fun st => (Raise e, st).
Definition bind {A B} (m : M A) (k : A -> M B) : M B :=
  fun st =>
    match m st with
    | (Ok a, st') => k a st'
    | (Raise e, st') => (Raise e, st')
    | (OutOfFuel, st') => (OutOfFuel, st')
    | (Dangling, st') => (Dangling, st')
    | (Unmodelled, st') => (Unmodelled, st')
    end.

(** A computation that does not touch the store. *)
Definition lift {A} (o : outcome A) : M A := fun st => (o, st).

Declare Scope py_scope.
Delimit Scope py_scope with py.
Notation "'let*' x ':=' m 'in' k" := (bind m (fun x => k))
  (at level 10, x pattern, m at level 100, k at level 200) : py_scope.
Local Open Scope py_scope.

Fixpoint mapM {A B} (f : A -> M B) (l : list A) : M (list B) :=
  match l with
  | [] => ret []
  | a :: l' => let* b := f a in let* bs := mapM f l' in ret (b :: bs)
  end.

(** ** Store access *)

Definition get_list (l : loc) : M (list value) :=
  fun st => match lists st !! l with
            | Some vs => (Ok vs, st)
            | None => (Dangling, st)
            end.

Definition set_list (l : loc) (vs : list value) : M unit :=
  fun st => (Ok tt, State (<[l := vs]> (lists st)) (envs st)).

(** A new list object. *)
Definition alloc_list (vs : list value) : M loc :=
  fun st => (Ok (length (lists st)), State (lists st ++ [vs]) (envs st)).

Definition new_list (vs : list value) : M value :=
  let* l := alloc_list vs in ret (VList l).

Definition get_env (e : loc) : M Env :=
  fun st => match envs st !! e with
            | Some o => (Ok o, st)
            | None => (Dangling, st)
            end.

Definition set_env (e : loc) (o : Env) : M unit :=
  fun st => (Ok tt, State (lists st) (<[e := o]> (envs st))).

Definition new_env (o : Env) : M loc :=
  fun st => (Ok (length (envs st)), State (lists st) (envs st ++ [o])).

(** ** Host operations on values *)

(** [v == s] for a [str] constant [s]: only an equal [str] compares equal. *)
Definition is_sym (s : string) (v : value) : bool :=
  match v with
  | VStr s' => String.eqb s s'
  | _ => false
  end.

(** binary64 *)
Definition prec : Z := 53.
Definition emax : Z := 1024.

Definition float_zero (f : spec_float) : bool :=
  match f with S754_zero _ => true | _ => false end.

(** Python truth value: [False], [None], a zero number, the empty [str] and
    the empty [list] are false; everything else, a [Procedure] and a
    built-in included, is true. *)
Definition truthy (v : value) : M bool :=
  match v with
  | VInt z => ret (negb (Z.eqb z 0))
  | VFloat f => ret (negb (float_zero f))
  | VBool b => ret b
  | VNone => ret false
  | VStr s => ret (negb (String.eqb s ""))
  | VList l => let* vs := get_list l in ret (negb (Nat.eqb (length vs) 0))
  | VProc _ _ _ => ret true
  | VBuiltin _ => ret true
  end.

(** The key under which a dict stores a value.  A [list] is unhashable; a
    [str] is its own key; the other values are hashable, but a dict keyed
    by them is outside the embedding. *)
Definition hash_key (v : value) : outcome string :=
  match v with
  | VStr s => Ok s
  | VList _ => Raise TypeError
  | _ => Unmodelled
  end.

(** ** Numbers *)

(** The numeric operands of the operator functions: [bool] is a subclass of
    [int]. *)
Inductive num := NInt (z : Z) | NFloat (f : spec_float).

Definition as_num (v : value) : option num :=
  match v with
  | VInt z => Some (NInt z)
  | VBool b => Some (NInt (Z.b2z b))
  | VFloat f => Some (NFloat f)
  | _ => None
  end.

(** [float(z)] for an [int]: rounded to nearest, ties to even; an [int]
    beyond the range of binary64 raises. *)
Definition float_of_Z (z : Z) : outcome spec_float :=
  match binary_normalize prec emax z 0 false with
  | S754_infinity _ => Raise OverflowError
  | f => Ok f
  end.

Definition to_float (a : num) : outcome spec_float :=
  match a with
  | NInt z => float_of_Z z
  | NFloat f => Ok f
  end.

(** The quotient of two positive integers rounded once to binary64. *)
Definition round_quotient (s : bool) (m d : positive) : spec_float :=
  SFdiv prec emax (S754_finite s m 0) (S754_finite false d 0).

(** [int.__truediv__]: the correctly rounded quotient, as a [float]. *)
Definition int_truediv (a b : Z) : outcome value :=
  match b, a with
  | Z0, _ => Raise ZeroDivisionError
  | _, Z0 => Ok (VFloat (S754_zero (Z.ltb b 0)))
  | _, _ =>
      match round_quotient (xorb (Z.ltb a 0) (Z.ltb b 0))
                           (Z.to_pos (Z.abs a)) (Z.to_pos (Z.abs b)) with
      | S754_infinity _ => Raise OverflowError
      | f => Ok (VFloat f)
      end
  end.

(** [float.__truediv__] *)
Definition float_truediv (x y : spec_float) : outcome value :=
  if float_zero y then Raise ZeroDivisionError
  else Ok (VFloat (SFdiv prec emax x y)).

Definition bind_o {A B} (o : outcome A) (k : A -> outcome B) : outcome B :=
  match o with
  | Ok a => k a
  | Raise e => Raise e
  | OutOfFuel => OutOfFuel
  | Dangling => Dangling
  | Unmodelled => Unmodelled
  end.

(** An operator on two numbers: on two [int]s the exact result, otherwise
    the [int] operand is converted and the binary64 operation applies. *)
Definition arith (iop : Z -> Z -> Z)
    (fop : spec_float -> spec_float -> spec_float) (a b : num) : outcome value :=
  match a, b with
  | NInt x, NInt y => Ok (VInt (iop x y))
  | _, _ =>
      bind_o (to_float a) (fun x =>
      bind_o (to_float b) (fun y => Ok (VFloat (fop x y))))
  end.

Definition truediv (a b : num) : outcome value :=
  match a, b with
  | NInt x, NInt y => int_truediv x y
  | _, _ =>
      bind_o (to_float a) (fun x =>
      bind_o (to_float b) (fun y => float_truediv x y))
  end.

(** ** Sequences *)

Fixpoint repeat_string (n : nat) (s : string) : string :=
  match n with
  | O => ""
  | S n' => s ++ repeat_string n' s
  end.

Definition repeat_list {A} (n : nat) (l : list A) : list A :=
  List.concat (replicate n l).

(** ** The built-in table *)

(** [op.add]: numbers, [str + str], [list + list]. *)
Definition op_add (x y : value) : M value :=
  match as_num x, as_num y with
  | Some a, Some b => lift (arith Z.add (SFadd prec emax) a b)
  | _, _ =>
      match x, y with
      | VStr s, VStr t => ret (VStr (s ++ t))
      | VList l, VList k =>
          let* xs := get_list l in
          let* ys := get_list k in
          new_list (xs ++ ys)%list
      | _, _ => raise TypeError
      end
  end.

(** [op.sub]: numbers only. *)
Definition op_sub (x y : value) : M value :=
  match as_num x, as_num y with
  | Some a, Some b => lift (arith Z.sub (SFsub prec emax) a b)
  | _, _ => raise TypeError
  end.

(** [op.mul]: numbers, and a [str] or a [list] repeated an [int] number of
    times. *)
Definition op_mul (x y : value) : M value :=
  match as_num x, as_num y with
  | Some a, Some b => lift (arith Z.mul (SFmul prec emax) a b)
  | Some (NInt n), None | None, Some (NInt n) =>
      match (match as_num x with Some _ => y | None => x end) with
      | VStr s => ret (VStr (repeat_string (Z.to_nat n) s))
      | VList l => let* xs := get_list l in new_list (repeat_list (Z.to_nat n) xs)
      | _ => raise TypeError
      end
  | _, _ => raise TypeError
  end.

(** [op.truediv]: numbers only. *)
Definition op_truediv (x y : value) : M value :=
  match as_num x, as_num y with
  | Some a, Some b => lift (truediv a b)
  | _, _ => raise TypeError
  end.

(** [callable(x)] *)
Definition callable (v : value) : bool :=
  match v with
  | VProc _ _ _ | VBuiltin _ => true
  | _ => false
  end.

(** The call of a built-in on its argument tuple. *)
Definition call_builtin (b : builtin) (vals : list value) : M value :=
  match b, vals with
  | BAdd, [x; y] => op_add x y
  | BSub, [x; y] => op_sub x y
  | BMul, [x; y] => op_mul x y
  | BDiv, [x; y] => op_truediv x y
  | BBegin, _ =>                                    (* lambda *x: x[-1] *)
      match last vals with
      | Some v => ret v
      | None => raise IndexError
      end
  | BFst, [x] =>                                    (* lambda x: x[0] *)
      match x with
      | VList l =>
          let* xs := get_list l in
          match xs with
          | v :: _ => ret v
          | [] => raise IndexError
          end
      | VStr (String c _) => ret (VStr (String c ""))
      | VStr "" => raise IndexError
      | _ => raise TypeError
      end
  | BCons, [x; y] =>                                (* lambda x,y: [x] + y *)
      match y with
      | VList k => let* ys := get_list k in new_list (x :: ys)
      | _ => raise TypeError
      end
  | BLength, [x] =>                                 (* len *)
      match x with
      | VList l => let* xs := get_list l in ret (VInt (Z.of_nat (length xs)))
      | VStr s => ret (VInt (Z.of_nat (String.length s)))
      | _ => raise TypeError
      end
  | BList, _ => new_list vals                       (* lambda *x: List(x) *)
  | BNot, [x] => let* t := truthy x in ret (VBool (negb t))
  | BNull, [x] =>                                   (* lambda x: x == [] *)
      match x with
      | VList l => let* xs := get_list l in ret (VBool (Nat.eqb (length xs) 0))
      | _ => ret (VBool false)
      end
  | BNumber, [x] =>
      ret (VBool (match as_num x with Some _ => true | None => false end))
  | BProcedure, [x] => ret (VBool (callable x))
  | BSymbol, [x] =>
      ret (VBool (match x with VStr _ => true | _ => false end))
  | _, _ => raise TypeError                         (* wrong argument count *)
  end.

(** [standard_env()]: the table of the root environment. *)
Definition standard_table : gmap string value :=
  list_to_map
    [ ("add", VBuiltin BAdd); ("sub", VBuiltin BSub); ("mul", VBuiltin BMul);
      ("div", VBuiltin BDiv); ("append", VBuiltin BAdd);
      ("begin", VBuiltin BBegin); ("fst", VBuiltin BFst);
      ("cons", VBuiltin BCons); ("length", VBuiltin BLength);
      ("list", VBuiltin BList); ("not", VBuiltin BNot);
      ("null?", VBuiltin BNull); ("number?", VBuiltin BNumber);
      ("procedure?", VBuiltin BProcedure); ("symbol?", VBuiltin BSymbol) ].

Definition standard_env : Env := MkEnv standard_table None.

(** ** class [Env] *)

(** [iter(parms)]: a [list] yields its elements, a [str] its characters;
    the other values are not iterable. *)
Definition iter_value (parms : value) : M (list value) :=
  match parms with
  | VList l => get_list l
  | VStr s => ret (map (fun c => VStr (String c "")) (list_ascii_of_string s))
  | _ => raise TypeError
  end.

(** [d.update(zip(parms, args))]: [zip] stops at the shorter of the two. *)
Fixpoint update_zip (t : gmap string value) (parms args : list value)
    : outcome (gmap string value) :=
  match parms, args with
  | p :: parms', a :: args' =>
      bind_o (hash_key p) (fun k => update_zip (<[k := a]> t) parms' args')
  | _, _ => Ok t
  end.

(** [Env.__init__(self, parms, args, outer)] *)
Definition Env_init (parms : value) (args : list value) (outer : option loc)
    : M loc :=
  let* ps := iter_value parms in
  let* t := lift (update_zip ∅ ps args) in
  new_env (MkEnv t outer).

(** [Env.find(self, var)]: the innermost [Env] where [var] appears; at the
    root, [self.outer] is [None] and [None.find] raises [AttributeError]. *)
Fixpoint Env_find (fuel : nat) (self : loc) (var : string) : M loc :=
  match fuel with
  | O => lift OutOfFuel
  | S n =>
      let* o := get_env self in
      match table o !! var with
      | Some _ => ret self
      | None =>
          match outer o with
          | Some e => Env_find n e var
          | None => raise AttributeError
          end
      end
  end.

(** [self[var] = v] on the [Env] at [self]. *)
Definition Env_setitem (self : loc) (var : string) (v : value) : M unit :=
  let* o := get_env self in
  set_env self (MkEnv (<[var := v]> (table o)) (outer o)).

(** [self[var]]; [find] has returned [self], so the key is there. *)
Definition Env_getitem (self : loc) (var : string) : M value :=
  let* o := get_env self in
  match table o !! var with
  | Some v => ret v
  | None => lift Dangling
  end.

(** ** class [Procedure] and [eval] *)

Section Eval.
(** [eval] and [Env.find] one level deeper in the call stack. *)
Variable eval : value -> loc -> M value.
Variable find : loc -> string -> M loc.

(** [Procedure.__call__(self, *args)] *)
Definition Procedure_call (parms body : value) (env : loc)
    (args : list value) : M value :=
  let* e := Env_init parms args (Some env) in
  eval body e.

(** The call [proc( *vals )] *)
Definition call (proc : value) (vals : list value) : M value :=
  match proc with
  | VProc parms body env => Procedure_call parms body env vals
  | VBuiltin b => call_builtin b vals
  | _ => raise TypeError
  end.

(** The body of [eval(x, env)] *)
Definition eval_body (x : value) (env : loc) : M value :=
  match x with
  | VStr s =>                                     (* variable reference *)
      let* e := find env s in
      Env_getitem e s
  | VList l =>
      let* xs := get_list l in
      match xs with
      | [] => raise ValueError                    (* op, *args = x *)
      | op :: args =>
          match args with
          | [] => raise IndexError                (* args[0] *)
          | a0 :: rest =>
              if is_sym "->" a0 then              (* lambda expression *)
                let* _ := set_list l (a0 :: op :: rest) in
                eval x env
              else if is_sym "quote" op then      (* quotation *)
                ret a0
              else if is_sym "if" op then         (* conditional *)
                match args with
                | [test; conseq; alt] =>
                    let* t := eval test env in
                    let* b := truthy t in
                    eval (if b then conseq else alt) env
                | _ => raise ValueError
                end
              else if is_sym "define" op then     (* definition *)
                match args with
                | [symbol; exp] =>
                    let* v := eval exp env in
                    let* k := lift (hash_key symbol) in
                    let* _ := Env_setitem env k v in
                    ret VNone
                | _ => raise ValueError
                end
              else if is_sym "set!" op then       (* assignment *)
                match args with
                | [symbol; exp] =>
                    let* v := eval exp env in
                    let* k := lift (hash_key symbol) in
                    let* e := find env k in
                    let* _ := Env_setitem e k v in
                    ret VNone
                | _ => raise ValueError
                end
              else if is_sym "->" op then         (* procedure *)
                match args with
                | [parms; body] => ret (VProc parms body env)
                | _ => raise ValueError
                end
              else                                (* procedure call *)
                let* proc := eval op env in
                let* vals := mapM (fun arg => eval arg env) args in
                call proc vals
          end
      end
  | _ => ret x                                    (* constant *)
  end.
End Eval.

(** [eval(x, env)]; the budget bounds the depth of the calls of [eval] and
    of [Env.find]. *)
Fixpoint eval (fuel : nat) (x : value) (env : loc) {struct fuel} : M value :=
  match fuel with
  | O => lift OutOfFuel
  | S n => eval_body (eval n) (Env_find n) x env
  end.

(** ** Tokenizer *)

(** The program text is a [str]; its characters are modelled by the code
    points below 256. *)

(** [chars.replace(c, new)] for a pattern of one character. *)
Fixpoint replace (c : ascii) (new : string) (chars : string) : string :=
  match chars with
  | "" => ""
  | String a s =>
      if Ascii.eqb a c then new ++ replace c new s
      else String a (replace c new s)
  end.

(** [str.isspace] on one character: the code points 9-13, 28-32, 133, 160. *)
Definition isspace (c : ascii) : bool :=
  let n := nat_of_ascii c in
  ((9 <=? n) && (n <=? 13) || (28 <=? n) && (n <=? 32)
   || (n =? 133) || (n =? 160))%nat.

(** [chars.split()]: the maximal runs of characters that are not spaces;
    [cur] is the run being read. *)
Fixpoint split_from (cur : option string) (chars : string) : list string :=
  match chars with
  | "" => match cur with Some t => [t] | None => [] end
  | String c s =>
      if isspace c then
        match cur with
        | Some t => t :: split_from None s
        | None => split_from None s
        end
      else split_from (Some (default "" cur ++ String c "")) s
  end.

Definition split (chars : string) : list string := split_from None chars.

(** [tokenize(chars)] *)
Definition tokenize (chars : string) : list string :=
  split (replace ")" " ) " (replace "(" " ( " chars)).

(** ** Atoms *)

Definition digit (c : ascii) : option Z :=
  let n := nat_of_ascii c in
  if ((48 <=? n) && (n <=? 57))%nat then Some (Z.of_nat (n - 48)) else None.

(** The rest of a [digitpart ::= digit (["_"] digit)*] after its first
    digit: the value, the number of digits read and what follows. *)
Fixpoint digitpart_rest (acc : Z) (cnt : nat) (s : string) : Z * nat * string :=
  match s with
  | String c s' =>
      match digit c with
      | Some d => digitpart_rest (10 * acc + d) (S cnt) s'
      | None =>
          if Ascii.eqb c "_" then
            match s' with
            | String c' s'' =>
                match digit c' with
                | Some d => digitpart_rest (10 * acc + d) (S cnt) s''
                | None => (acc, cnt, s)
                end
            | "" => (acc, cnt, s)
            end
          else (acc, cnt, s)
      end
  | "" => (acc, cnt, s)
  end.

(** A [digitpart] whose digits continue the decimal numeral [acc]. *)
Definition digitpart (acc : Z) (s : string) : option (Z * nat * string) :=
  match s with
  | String c s' =>
      match digit c with
      | Some d => Some (digitpart_rest (10 * acc + d) 1 s')
      | None => None
      end
  | "" => None
  end.

Definition sign (s : string) : bool * string :=
  match s with
  | String "-" s' => (true, s')
  | String "+" s' => (false, s')
  | _ => (false, s)
  end.

Definition signed (neg : bool) (z : Z) : Z := if neg then (- z)%Z else z.

(** [int(token)] in base 10; [None] is [ValueError].  The bound that recent
    hosts put on the number of digits is not modelled. *)
Definition py_int (token : string) : option Z :=
  let (neg, s) := sign token in
  match digitpart 0 s with
  | Some (z, _, "") => Some (signed neg z)
  | _ => None
  end.

Definition lower (c : ascii) : ascii :=
  let n := nat_of_ascii c in
  if ((65 <=? n) && (n <=? 90))%nat then ascii_of_nat (n + 32) else c.

Fixpoint lower_string (s : string) : string :=
  match s with
  | "" => ""
  | String c s' => String (lower c) (lower_string s')
  end.

(** [exponent ::= ("e" | "E") ["+" | "-"] digitpart], up to the end of the
    token; no exponent is the exponent 0. *)
Definition exponent (s : string) : option Z :=
  match s with
  | "" => Some 0%Z
  | String c s' =>
      if Ascii.eqb (lower c) "e" then
        let (neg, s'') := sign s' in
        match digitpart 0 s'' with
        | Some (z, _, "") => Some (signed neg z)
        | _ => None
        end
      else None
  end.

(** A decimal literal as [m * 10^e]. *)
Definition with_exponent (m : Z) (nf : nat) (s : string) : option (Z * Z) :=
  match exponent s with
  | Some e => Some (m, (e - Z.of_nat nf)%Z)
  | None => None
  end.

Definition decimal (s : string) : option (Z * Z) :=
  match s with
  | String "." s' =>
      match digitpart 0 s' with
      | Some (m, nf, r) => with_exponent m nf r
      | None => None
      end
  | _ =>
      match digitpart 0 s with
      | Some (i, _, String "." r) =>
          match digitpart i r with
          | Some (m, nf, r') => with_exponent m nf r'
          | None => with_exponent i 0 r
          end
      | Some (i, _, r) => with_exponent i 0 r
      | None => None
      end
  end.

(** [m * 10^e] rounded once to binary64; beyond the range it is an
    infinity. *)
Definition float_of_decimal (neg : bool) (m e : Z) : spec_float :=
  match m with
  | Zpos p =>
      if (0 <=? e)%Z then binary_round prec emax neg (p * Z.to_pos (10 ^ e)) 0
      else round_quotient neg p (Z.to_pos (10 ^ (- e)))
  | _ => S754_zero neg
  end.

(** [float(token)]; [None] is [ValueError]. *)
Definition py_float (token : string) : option spec_float :=
  let (neg, s) := sign token in
  let w := lower_string s in
  if String.eqb w "inf" || String.eqb w "infinity" then Some (S754_infinity neg)
  else if String.eqb w "nan" then Some S754_nan
  else
    match decimal s with
    | Some (m, e) => Some (float_of_decimal neg m e)
    | None => None
    end.

(** [atom(token)]: numbers become numbers; every other token is a symbol. *)
Definition atom (token : string) : value :=
  match py_int token with
  | Some z => VInt z
  | None =>
      match py_float token with
      | Some f => VFloat f
      | None => VStr token
      end
  end.

(** ** Reader *)

(** [L.append(v)] *)
Definition list_append (l : loc) (v : value) : M unit :=
  let* xs := get_list l in set_list l (xs ++ [v])%list.

Section Loop.
(** [read_from_tokens] one level deeper in the call stack. *)
Variable read : list string -> M (value * list string).

(** The loop [while tokens[0] != ')': L.append(read_from_tokens(tokens))]
    followed by [tokens.pop(0)]; [k] bounds the number of its turns. *)
Fixpoint read_list (k : nat) (L : loc) (tokens : list string)
    : M (value * list string) :=
  match k with
  | O => lift OutOfFuel
  | S k' =>
      match tokens with
      | [] => raise IndexError                    (* tokens[0] *)
      | t0 :: rest =>
          if String.eqb t0 ")" then ret (VList L, rest)
          else
            let* (v, tokens') := read tokens in
            let* _ := list_append L v in
            read_list k' L tokens'
      end
  end.
End Loop.

(** [read_from_tokens(tokens)]: the expression read and the tokens that are
    left in the list [tokens], which the Python function pops in place. *)
Fixpoint read_from_tokens (fuel : nat) (tokens : list string)
    : M (value * list string) :=
  match fuel with
  | O => lift OutOfFuel
  | S n =>
      match tokens with
      | [] => raise (SyntaxError "unexpected EOF")
      | token :: tokens =>
          if String.eqb token "(" then
            let* L := alloc_list [] in
            read_list (read_from_tokens n) n L tokens
          else if String.eqb token ")" then
            raise (SyntaxError "unexpected )")
          else ret (atom token, tokens)
      end
  end.

(** [parse(program)].  One token at least is consumed by every call and by
    every turn of the loop, so the budget below is never exhausted
    ([parse_total]). *)
Definition parse (program : string) : M value :=
  let tokens := tokenize program in
  let* (x, _) := read_from_tokens (S (length tokens)) tokens in
  ret x.

(** ** Running a program *)

(** The stores at start-up: no list, and [global_env] at location 0. *)
Definition global_env : loc := 0.
Definition initial_state : state := State [] [standard_env].

(** [eval(parse(program))] with the default [env=global_env]. *)
Definition run (fuel : nat) (program : string) : M value :=
  let* x := parse program in eval fuel x global_env.

(** [read_program_from_file(filename)], given the text of the file: the
    line ends become spaces.  Opening the file, and the message and exit
    when it does not exist, are not embedded. *)
Definition read_program_from_file (data : string) : string :=
  replace "010" " " data.

(** * Vocabulary of the properties *)

(** The dispatch of [eval] on the elements [op :: a0 :: rest] once the
    infix test has failed. *)
Definition dispatch (n : nat) (op a0 : value) (rest : list value) (env : loc)
    : M value :=
  if is_sym "quote" op then ret a0
  else if is_sym "if" op then
    match rest with
    | [conseq; alt] =>
        let* t := eval n a0 env in
        let* b := truthy t in
        eval n (if b then conseq else alt) env
    | _ => raise ValueError
    end
  else if is_sym "define" op then
    match rest with
    | [exp] =>
        let* v := eval n exp env in
        let* k := lift (hash_key a0) in
        let* _ := Env_setitem env k v in
        ret VNone
    | _ => raise ValueError
    end
  else if is_sym "set!" op then
    match rest with
    | [exp] =>
        let* v := eval n exp env in
        let* k := lift (hash_key a0) in
        let* e := Env_find n env k in
        let* _ := Env_setitem e k v in
        ret VNone
    | _ => raise ValueError
    end
  else if is_sym "->" op then
    match rest with
    | [body] => ret (VProc a0 body env)
    | _ => raise ValueError
    end
  else
    let* proc := eval n op env in
    let* vals := mapM (fun arg => eval n arg env) (a0 :: rest) in
    call (eval n) proc vals.

(** The store after [x[0], x[1] = x[1], x[0]] on the list at [l]. *)
Definition swapped (l : loc) (p : value) (rest : list value) (st : state)
    : state :=
  State (<[l := VStr "->" :: p :: rest]> (lists st)) (envs st).

(** What [eval] returns on a list that holds [-> p rest...]. *)
Definition arrow_result (fuel : nat) (p : value) (rest : list value)
    (env : loc) : outcome value :=
  match fuel with
  | O => OutOfFuel
  | S _ =>
      if is_sym "->" p then OutOfFuel
      else match rest with
           | [body] => Ok (VProc p body env)
           | _ => Raise ValueError
           end
  end.

(** [m'] does what [m] does wherever [m] stays within its budget. *)
Definition refines {A} (m m' : M A) : Prop :=
  forall st, fst (m st) <> OutOfFuel -> m' st = m st.

(** The values that the host takes for false. *)
Definition falsy (st : state) (v : value) : Prop :=
  v = VBool false \/ v = VNone \/ v = VInt 0 \/
  (exists s, v = VFloat (S754_zero s)) \/ v = VStr "" \/
  (exists l, v = VList l /\ lists st !! l = Some []).

(** [var] is bound in no scope of the chain of [d] environments that starts
    at [e] and ends at the root, whose [outer] is [None]. *)
Inductive unbound (st : state) (var : string) : nat -> loc -> Prop :=
| unbound_root e o :
    envs st !! e = Some o -> table o !! var = None -> outer o = None ->
    unbound st var 1 e
| unbound_outer d e o e' :
    envs st !! e = Some o -> table o !! var = None -> outer o = Some e' ->
    unbound st var d e' ->
    unbound st var (S d) e.

(** The table that [Env.__init__] builds from the names [ps] and [args]. *)
Definition bound_table (ps : list string) (args : list value)
    : gmap string value :=
  foldl (fun t kv => <[kv.1 := kv.2]> t) ∅ (zip ps args).

(** The exact value of a finite binary64 number is [num / den]. *)
Definition float_is (f : spec_float) (num den : Z) : Prop :=
  match f with
  | S754_finite s m e =>
      let z := if s then Zneg m else Zpos m in
      if (0 <=? e)%Z then (z * 2 ^ e * den = num)%Z
      else (z * den = num * 2 ^ (- e))%Z
  | S754_zero _ => num = 0%Z
  | _ => False
  end.

(** The operators that [eval] does not take for a procedure. *)
Definition special (op : value) : bool :=
  is_sym "quote" op || is_sym "if" op || is_sym "define" op
  || is_sym "set!" op || is_sym "->" op.

(** The stores after [self[var] = v] on the [Env] [o] at [e]. *)
Definition assigned (e : loc) (o : Env) (var : string) (v : value)
    (st : state) : state :=
  State (lists st) (<[e := MkEnv (<[var := v]> (table o)) (outer o)]> (envs st)).

(** The stores after the call of a procedure has built its scope. *)
Definition entered (ps : list string) (args : list value) (env : loc)
    (st : state) : state :=
  State (lists st) (envs st ++ [MkEnv (bound_table ps args) (Some env)]).

(** A result of the reader that is within its budget and, when it is an
    expression, has consumed a token. *)
Definition reads_less (tokens : list string)
    (r : outcome (value * list string) * state) : Prop :=
  match fst r with
  | Ok (_, tokens') => length tokens' < length tokens
  | OutOfFuel => False
  | _ => True
  end.

(** The binary64 number 0.5 *)
Definition half : spec_float := S754_finite false 4503599627370496 (-53).

(** [A / (B * 2^e)] as a fraction of two integers. *)
Definition scaled (A B e : Z) : Z * Z :=
  (if 0 <=? e then (A, B * 2 ^ e) else (A * 2 ^ (- e), B))%Z.

(** The binade of a positive quotient: [2^(k-1) <= A / B < 2^k]. *)
Definition binade (A B k : Z) : Prop :=
  (snd (scaled A B k) <= 2 * fst (scaled A B k) /\
   fst (scaled A B k) < snd (scaled A B k))%Z.

(** [n] is the integer nearest to [N / D], and the even one of the two when
    [N / D] is half way between two integers. *)
Definition nearest_even (N D n : Z) : Prop :=
  (Z.abs (2 * N - 2 * n * D) <= D /\
   (Z.abs (2 * N - 2 * n * D) = D -> Z.even n = true))%Z.

(** The record [mrs] of the rounding of [SpecFloat] holds the integer part
    of [N / D] and the position of the rest: none, below the half, the half
    or above the half. *)
Definition located (N D : Z) (mrs : shr_record) : Prop :=
  (0 <= shr_m mrs /\ 0 <= N - shr_m mrs * D < D /\
   loc_of_shr_record mrs
   = if N - shr_m mrs * D =? 0 then loc_Exact
     else loc_Inexact (2 * (N - shr_m mrs * D) ?= D))%Z.

(** [f] is the positive quotient [A / B] rounded to binary64, to nearest
    and to even on a tie, with the sign [s]: with [k] the binade of [A / B]
    and [e = fexp k] the exponent of the last place kept ([k - 53], and
    -1074 below the normal numbers), the magnitude of [f] is [n * 2^e] for
    the integer [n] nearest to [A / (B * 2^e)]; [f] is a valid binary64
    number, and an infinity stands for a magnitude of [2^1024] or more. *)
Definition rounds_to (s : bool) (A B : Z) (f : spec_float) : Prop :=
  exists k n : Z,
    binade A B k /\
    nearest_even (fst (scaled A B (fexp prec emax k)))
                 (snd (scaled A B (fexp prec emax k))) n /\
    match f with
    | S754_zero s' => s' = s /\ n = 0%Z
    | S754_finite s' m e =>
        s' = s /\ bounded prec emax m e = true /\
        (fexp prec emax k <= e)%Z /\
        n = (Zpos m * 2 ^ (e - fexp prec emax k))%Z
    | S754_infinity s' =>
        s' = s /\ (0 <= fexp prec emax k)%Z /\
        (2 ^ 1024 <= n * 2 ^ fexp prec emax k)%Z
    | S754_nan => False
    end.

(** ** Tokens *)

(** The tokens that a run of characters [cur] in progress gives. *)
Definition flush (cur : option string) : list string :=
  match cur with Some t => [t] | None => [] end.

Definition is_paren (c : ascii) : bool := Ascii.eqb c "(" || Ascii.eqb c ")".

(** The tokens of a text read in one pass, without the two replacements:
    a parenthesis is a token of its own and ends the run in progress, a
    space ends it, any other character continues it. *)
Fixpoint tokens_from (cur : option string) (chars : string) : list string :=
  match chars with
  | "" => flush cur
  | String c s =>
      if is_paren c then (flush cur ++ String c "" :: tokens_from None s)%list
      else if isspace c then (flush cur ++ tokens_from None s)%list
      else tokens_from (Some (default "" cur ++ String c "")) s
  end.

(** No character of [s] is a space or a parenthesis. *)
Fixpoint plain (s : string) : bool :=
  match s with
  | "" => true
  | String c s' => negb (isspace c) && negb (is_paren c) && plain s'
  end.

Definition token_ok (t : string) : Prop :=
  t = "(" \/ t = ")" \/ (t <> "" /\ plain t = true).

(** ** The reader *)

(** The environments and the list objects below [base] are in [st'] as they
    are in [st], and no list object is gone. *)
Definition frame (base : nat) (st st' : state) : Prop :=
  envs st' = envs st /\ length (lists st) <= length (lists st') /\
  forall l, l < base -> lists st' !! l = lists st !! l.

(** The outcomes of the loop of the reader, and of the reader on
    [tokens]. *)
Definition loop_outcome {A} (o : outcome A) : Prop :=
  match o with
  | Ok _ | Raise IndexError | OutOfFuel => True
  | Raise (SyntaxError msg) => msg = "unexpected )"
  | _ => False
  end.

Definition reader_outcome {A} (tokens : list string) (o : outcome A) : Prop :=
  match o with
  | Raise (SyntaxError msg) =>
      (msg = "unexpected EOF" /\ tokens = []) \/ msg = "unexpected )"
  | _ => loop_outcome o
  end.

(** An expression as it is written: an atom or a parenthesised sequence. *)
#[warnings="-register-all"]
Inductive sexp := Atom (token : string) | SList (es : list sexp).

(** Its tokens. *)
Fixpoint tokens_of (e : sexp) : list string :=
  match e with
  | Atom t => [t]
  | SList es => ("(" :: concat (map tokens_of es) ++ [")"])%list
  end.

(** No atom is a parenthesis. *)
Fixpoint sexp_ok (e : sexp) : bool :=
  match e with
  | Atom t => negb (String.eqb t "(") && negb (String.eqb t ")")
  | SList es => forallb sexp_ok es
  end.

(** The value [v] is the tree of [e], built of the list objects from [lo]
    to [hi - 1] of [st]. *)
Fixpoint denotes (lo hi : nat) (st : state) (e : sexp) (v : value) : Prop :=
  match e with
  | Atom t => v = atom t
  | SList es =>
      exists l vs, v = VList l /\ lo <= l < hi /\ lists st !! l = Some vs /\
        (fix all (es : list sexp) (vs : list value) : Prop :=
           match es, vs with
           | [], [] => True
           | e :: es', v :: vs' => denotes lo hi st e v /\ all es' vs'
           | _, _ => False
           end) es vs
  end.

(** What a reader does on the tokens of [e] followed by [more]. *)
Definition reads (read : list string -> M (value * list string)) (e : sexp)
    : Prop :=
  forall more st, exists v st',
    read (tokens_of e ++ more)%list st = (Ok (v, more), st') /\
    denotes (length (lists st)) (length (lists st')) st' e v /\
    frame (length (lists st)) st st'.

(** ** Scopes and stores *)

(** [r] is the first scope that binds [var] on the way from [e] to the
    root. *)
Inductive nearest (st : state) (var : string) : loc -> loc -> Prop :=
| nearest_here e o v :
    envs st !! e = Some o -> table o !! var = Some v -> nearest st var e e
| nearest_outer e o e' r :
    envs st !! e = Some o -> table o !! var = None -> outer o = Some e' ->
    nearest st var e' r -> nearest st var e r.

(** Every list object of [st] is in [st'] with the same elements, in some
    order, and every environment of [st] is in [st'] with the same outer
    scope and at least the same names. *)
Definition extends (st st' : state) : Prop :=
  (forall l xs, lists st !! l = Some xs ->
     exists xs', lists st' !! l = Some xs' /\ xs' ≡ₚ xs) /\
  (forall e o, envs st !! e = Some o ->
     exists o', envs st' !! e = Some o' /\ outer o' = outer o /\
                dom (table o) ⊆ dom (table o')).

Definition keeps {A} (m : M A) : Prop := forall st, extends st (snd (m st)).

(** [m] changes no environment and no existing list object; it may add
    list objects. *)
Definition adds_lists {A} (m : M A) : Prop :=
  forall st, envs (snd (m st)) = envs st /\
             exists new, lists (snd (m st)) = (lists st ++ new)%list.

(** The characters of a [str], each as a [str]. *)
Definition characters (s : string) : list string :=
  map (fun c => String c "") (list_ascii_of_string s).

(** * Properties *)

(** ** The monad *)

Lemma bind_ok {A B} (m : M A) (k : A -> M B) st a st' :
  m st = (Ok a, st') -> bind m k st = k a st'.
Proof. intros H. unfold bind. now rewrite H. Qed.

Lemma bind_raise {A B} (m : M A) (k : A -> M B) st e st' :
  m st = (Raise e, st') -> bind m k st = (Raise e, st').
Proof. intros H. unfold bind. now rewrite H. Qed.

Lemma get_list_ok st l vs :
  lists st !! l = Some vs -> get_list l st = (Ok vs, st).
Proof. intros H. unfold get_list. now rewrite H. Qed.

Lemma get_env_ok st e o :
  envs st !! e = Some o -> get_env e st = (Ok o, st).
Proof. intros H. unfold get_env. now rewrite H. Qed.

(** [is_sym s v] holds of the symbol [s] only. *)
Lemma is_sym_true s v : is_sym s v = true <-> v = VStr s.
Proof.
  destruct v; simpl; try (split; [discriminate | intros [=]]).
  rewrite String.eqb_eq. split; [now intros -> | now intros [= ->]].
Qed.

Lemma is_sym_str s t : is_sym s (VStr t) = false <-> t <> s.
Proof.
  simpl. rewrite String.eqb_neq. split; intros H E; now apply H.
Qed.

(** ** One step of [eval] on a list *)

Lemma eval_list n l env st xs :
  lists st !! l = Some xs ->
  eval (S n) (VList l) env st =
  match xs with
  | [] => (Raise ValueError, st)
  | [_] => (Raise IndexError, st)
  | op :: a0 :: rest =>
      if is_sym "->" a0
      then eval n (VList l) env (State (<[l := a0 :: op :: rest]> (lists st)) (envs st))
      else dispatch n op a0 rest env st
  end.
Proof.
  intros H. simpl. unfold eval_body, bind at 1. rewrite (get_list_ok _ _ _ H).
  destruct xs as [|op [|a0 rest]]; try reflexivity.
  unfold dispatch. destruct (is_sym "->" a0); [reflexivity|].
  destruct (is_sym "quote" op); [reflexivity|].
  destruct (is_sym "if" op); [now destruct rest as [|? [|? [|]]]|].
  destruct (is_sym "define" op); [now destruct rest as [|? [|]]|].
  destruct (is_sym "set!" op); [now destruct rest as [|? [|]]|].
  destruct (is_sym "->" op); [now destruct rest as [|? [|]]|].
  reflexivity.
Qed.

Lemma eval_symbol n s env st :
  eval (S n) (VStr s) env st =
  (let* e := Env_find n env s in Env_getitem e s) st.
Proof. reflexivity. Qed.

Lemma eval_constant n x env st :
  match x with VStr _ | VList _ => False | _ => True end ->
  eval (S n) x env st = (Ok x, st).
Proof. now destruct x. Qed.

(** ** The budget of the reader *)

Lemma read_list_fuel (read : list string -> M (value * list string)) n :
  (forall toks st, length toks < n -> reads_less toks (read toks st)) ->
  forall k L tokens st,
    length tokens < k -> length tokens < n ->
    reads_less tokens (read_list read k L tokens st).
Proof.
  intros Hread. induction k as [|k IH]; intros L tokens st Hk Hn; [lia|].
  destruct tokens as [|t0 rest]; [exact I|]. simpl read_list.
  destruct (String.eqb t0 ")"); [unfold reads_less; simpl; lia|].
  specialize (Hread (t0 :: rest) st Hn). unfold reads_less, bind in *.
  destruct (read (t0 :: rest) st) as [[[v tokens']| | | |] st1];
    simpl in *; try easy.
  unfold list_append, bind, get_list.
  destruct (lists st1 !! L); [|exact I]. simpl.
  specialize (IH L tokens'
    (State (<[L := (l ++ [v])%list]> (lists st1)) (envs st1))).
  destruct (read_list read k L tokens' _) as [[[v' t'']| | | |] st2];
    simpl in *; try easy; try (apply IH; lia).
  assert (length t'' < length tokens') by (apply IH; lia). lia.
Qed.

Lemma read_from_tokens_fuel fuel : forall tokens st,
  length tokens < fuel -> reads_less tokens (read_from_tokens fuel tokens st).
Proof.
  induction fuel as [|n IH]; intros tokens st H; [lia|].
  destruct tokens as [|token tokens]; [exact I|]. simpl read_from_tokens.
  destruct (String.eqb token "(").
  - unfold bind, alloc_list. simpl in H.
    pose proof (read_list_fuel (read_from_tokens n) n IH n (length (lists st))
                  tokens (State (lists st ++ [[]]) (envs st))) as R.
    unfold reads_less in *.
    destruct (read_list _ n _ tokens _) as [[[v t']| | | |] st1];
      simpl in *; try easy; try (apply R; lia).
    assert (length t' < length tokens) by (apply R; lia). lia.
  - destruct (String.eqb token ")"); [exact I|].
    unfold reads_less. simpl. lia.
Qed.

(** [parse] never exhausts the budget that it gives to the reader. *)
Lemma parse_total program st : fst (parse program st) <> OutOfFuel.
Proof.
  unfold parse, bind.
  pose proof (read_from_tokens_fuel (S (length (tokenize program)))
                (tokenize program) st (Nat.lt_succ_diag_r _)) as R.
  unfold reads_less in R.
  now destruct (read_from_tokens _ _ st) as [[[v t']| | | |] st1].
Qed.

(** ** Lists of one element and of no element *)

(** C3. A list expression of exactly one element, such as the call [(f)]
    with no operand, raises [IndexError] at [args[0]] whatever its element
    is and whatever the environment holds: nothing has been evaluated and
    the stores are unchanged, and no budget makes the call succeed. *)
Theorem eval_one_element_list_fails :
  forall (l : loc) (f : value) (env : loc) (st : state),
    lists st !! l = Some [f] ->
    (forall n, eval (S n) (VList l) env st = (Raise IndexError, st)) /\
    (forall fuel v, fst (eval fuel (VList l) env st) <> Ok v).
Proof.
  intros l f env st H. split.
  - intros n. now rewrite (eval_list _ _ _ _ _ H).
  - intros [|n] v; [discriminate|].
    now rewrite (eval_list _ _ _ _ _ H).
Qed.

(** [parse] of the two tokens ["("] and [")"]. *)
Lemma parse_empty_list st :
  parse "()" st =
  (Ok (VList (length (lists st))), State (lists st ++ [[]]) (envs st)).
Proof. reflexivity. Qed.

(** C10. The text ["()"] is read as a new list object without element,
    and the evaluation of a list without element raises [ValueError] at
    [op, *args = x] in every environment. *)
Theorem empty_list_read_not_evaluated :
  forall (st : state),
    parse "()" st =
      (Ok (VList (length (lists st))), State (lists st ++ [[]]) (envs st)) /\
    (forall env n,
        eval (S n) (VList (length (lists st))) env
             (State (lists st ++ [[]]) (envs st)) =
          (Raise ValueError, State (lists st ++ [[]]) (envs st))) /\
    (forall env fuel v, fst (eval fuel (VList (length (lists st))) env
                               (State (lists st ++ [[]]) (envs st))) <> Ok v).
Proof.
  intros st.
  assert (H : lists (State (lists st ++ [[]]) (envs st)) !! length (lists st)
              = Some (@nil value)).
  { simpl. rewrite lookup_app_r by lia. now rewrite Nat.sub_diag. }
  split; [apply parse_empty_list|split].
  - intros env n. now rewrite (eval_list _ _ _ _ _ H).
  - intros env [|n] v; [discriminate|].
    now rewrite (eval_list _ _ _ _ _ H).
Qed.

(** C3 at the call [(f)] of a procedure that accepts no argument. *)
Lemma eval_one_element_list_fails_witness :
  let st := State [[VStr "f"]]
                  [MkEnv (<["f" := VBuiltin BList]> standard_table) None] in
  (forall n, eval (S n) (VList 0) global_env st = (Raise IndexError, st)) /\
  (forall fuel v, fst (eval fuel (VList 0) global_env st) <> Ok v).
Proof.
  intros st. apply (eval_one_element_list_fails 0 (VStr "f")). reflexivity.
Defined.

(** ** The infix form of a procedure literal *)

Lemma lookup_swapped l p rest st xs :
  lists st !! l = Some xs ->
  lists (swapped l p rest st) !! l = Some (VStr "->" :: p :: rest).
Proof.
  intros H. simpl. apply list_lookup_insert_eq. now apply lookup_lt_Some in H.
Qed.

(** On a list in prefix form the result depends on its elements only, and
    the list keeps them. *)
Lemma eval_prefix_form fuel l p rest env st :
  lists st !! l = Some (VStr "->" :: p :: rest) ->
  fst (eval fuel (VList l) env st) = arrow_result fuel p rest env /\
  lists (snd (eval fuel (VList l) env st)) !! l = Some (VStr "->" :: p :: rest).
Proof.
  revert st. induction fuel as [|n IH]; intros st H; [now split|].
  rewrite (eval_list _ _ _ _ _ H). simpl arrow_result.
  destruct (is_sym "->" p) eqn:Ep.
  - apply is_sym_true in Ep. subst p.
    destruct (IH (swapped l (VStr "->") rest st)
                 (lookup_swapped _ _ _ _ _ H)) as [IH1 IH2].
    split; [|exact IH2].
    unfold swapped in IH1. rewrite IH1. now destruct n.
  - unfold dispatch. simpl. now destruct rest as [|? [|]].
Qed.

(** C9. A list whose second element is the symbol [->] is swapped in place
    and evaluated again: the list object holds the prefix form afterwards,
    and the result is the one of any list written in prefix form, which
    needs one level of recursion less. *)
Theorem infix_arrow_swapped :
  forall (n : nat) (l : loc) (p : value) (rest : list value) (env : loc)
         (st : state),
    lists st !! l = Some (p :: VStr "->" :: rest) ->
    eval (S n) (VList l) env st = eval n (VList l) env (swapped l p rest st) /\
    lists (snd (eval (S n) (VList l) env st)) !! l
      = Some (VStr "->" :: p :: rest) /\
    (forall st' l', lists st' !! l' = Some (VStr "->" :: p :: rest) ->
                    fst (eval (S n) (VList l) env st)
                    = fst (eval n (VList l') env st')).
Proof.
  intros n l p rest env st H.
  assert (E : eval (S n) (VList l) env st
              = eval n (VList l) env (swapped l p rest st)).
  { now rewrite (eval_list _ _ _ _ _ H). }
  pose proof (eval_prefix_form n l p rest env _ (lookup_swapped _ _ _ _ _ H))
    as [R1 R2].
  repeat split.
  - exact E.
  - now rewrite E.
  - intros st' l' H'. rewrite E, R1.
    symmetry. apply (eval_prefix_form n l' p rest env st' H').
Qed.

(** C9 on the text [((x) -> x)]. *)
Lemma infix_arrow_swapped_witness :
  let st := State [[VList 1; VStr "->"; VStr "x"]; [VStr "x"]] [standard_env] in
  eval 2 (VList 0) global_env st
    = eval 1 (VList 0) global_env (swapped 0 (VList 1) [VStr "x"] st) /\
  lists (snd (eval 2 (VList 0) global_env st)) !! 0
    = Some [VStr "->"; VList 1; VStr "x"] /\
  (forall st' l', lists st' !! l' = Some [VStr "->"; VList 1; VStr "x"] ->
                  fst (eval 2 (VList 0) global_env st)
                  = fst (eval 1 (VList l') global_env st')).
Proof.
  intros st. apply (infix_arrow_swapped 1 0 (VList 1) [VStr "x"]). reflexivity.
Defined.

(** ** A larger budget does not change a result *)

Lemma refines_refl {A} (m : M A) : refines m m.
Proof. now intros st _. Qed.

Lemma refines_trans {A} (m1 m2 m3 : M A) :
  refines m1 m2 -> refines m2 m3 -> refines m1 m3.
Proof.
  intros H12 H23 st H. rewrite <- (H12 st H). apply H23. now rewrite (H12 st H).
Qed.

Lemma refines_bind {A B} (m m' : M A) (k k' : A -> M B) :
  refines m m' -> (forall a, refines (k a) (k' a)) ->
  refines (bind m k) (bind m' k').
Proof.
  intros Hm Hk st H. unfold bind in *. specialize (Hm st).
  destruct (m st) as [[a| | | |] st1]; simpl in *;
    try (rewrite Hm by discriminate; reflexivity).
  - rewrite Hm by discriminate. now apply Hk.
  - now contradict H.
Qed.

Lemma refines_mapM {A B} (f f' : A -> M B) (l : list A) :
  (forall a, refines (f a) (f' a)) -> refines (mapM f l) (mapM f' l).
Proof.
  intros Hf. induction l as [|a l IH]; simpl; [apply refines_refl|].
  apply refines_bind; [apply Hf|]. intros b.
  apply refines_bind; [exact IH|]. intros bs. apply refines_refl.
Qed.

Create HintDb refine discriminated.
#[local] Hint Resolve refines_refl refines_bind refines_mapM : refine.

Lemma Env_find_mono n e var : refines (Env_find n e var) (Env_find (S n) e var).
Proof.
  revert e. induction n as [|n IH]; intros e; [now intros st H|].
  change (refines
    (let* o := get_env e in
     match table o !! var with
     | Some _ => ret e
     | None => match outer o with
               | Some e' => Env_find n e' var
               | None => raise AttributeError
               end
     end)
    (let* o := get_env e in
     match table o !! var with
     | Some _ => ret e
     | None => match outer o with
               | Some e' => Env_find (S n) e' var
               | None => raise AttributeError
               end
     end)).
  apply refines_bind; [apply refines_refl|]. intros o.
  destruct (table o !! var); [apply refines_refl|].
  destruct (outer o); [apply IH|apply refines_refl].
Qed.

Lemma eval_body_mono (ev ev' : value -> loc -> M value)
    (find find' : loc -> string -> M loc) :
  (forall x env, refines (ev x env) (ev' x env)) ->
  (forall e s, refines (find e s) (find' e s)) ->
  forall x env, refines (eval_body ev find x env) (eval_body ev' find' x env).
Proof.
  intros Hev Hfind x env. destruct x; try apply refines_refl.
  - simpl. auto with refine.
  - simpl. apply refines_bind; [apply refines_refl|]. intros xs.
    destruct xs as [|op [|a0 rest]]; try apply refines_refl.
    destruct (is_sym "->" a0); [auto with refine|].
    destruct (is_sym "quote" op); [apply refines_refl|].
    destruct (is_sym "if" op).
    { destruct rest as [|c [|a [|]]]; auto 10 with refine. }
    destruct (is_sym "define" op).
    { destruct rest as [|c [|]]; auto 10 with refine. }
    destruct (is_sym "set!" op).
    { destruct rest as [|c [|]]; auto 10 with refine. }
    destruct (is_sym "->" op).
    { destruct rest as [|c [|]]; auto with refine. }
    apply refines_bind; [apply Hev|]. intros proc.
    apply refines_bind; [apply refines_mapM; intros a; apply Hev|]. intros vals.
    destruct proc; try apply refines_refl.
    simpl. unfold Procedure_call. auto with refine.
Qed.

Lemma eval_mono n x env : refines (eval n x env) (eval (S n) x env).
Proof.
  revert x env. induction n as [|n IH]; intros x env; [now intros st H|].
  apply (eval_body_mono (eval n) (eval (S n)) (Env_find n) (Env_find (S n)));
    [exact IH|apply Env_find_mono].
Qed.

(** Once [eval] has finished within a budget, every larger budget gives the
    same result and the same stores. *)
Lemma eval_fuel n k x env st :
  fst (eval n x env st) <> OutOfFuel ->
  eval (n + k) x env st = eval n x env st.
Proof.
  intros H. induction k as [|k IH]; [now rewrite Nat.add_0_r|].
  rewrite Nat.add_succ_r, <- IH. apply eval_mono. now rewrite IH.
Qed.

Lemma run_fuel n k program st :
  fst (run n program st) <> OutOfFuel ->
  run (n + k) program st = run n program st.
Proof.
  unfold run, bind. destruct (parse program st) as [[x| | | |] st1]; auto.
  apply eval_fuel.
Qed.

(** ** The conditional *)

Lemma truthy_state v st : snd (truthy v st) = st.
Proof.
  destruct v; try reflexivity. simpl. unfold bind, get_list.
  now destruct (lists st !! l).
Qed.

Lemma truthy_false v st : truthy v st = (Ok false, st) <-> falsy st v.
Proof.
  unfold falsy. split.
  - destruct v as [z|f|b| |s|l|p b e|b]; simpl; unfold ret; intros E;
      try discriminate E.
    + right; right; left. injection E as E.
      apply negb_false_iff, Z.eqb_eq in E. now subst.
    + right; right; right; left. injection E as E.
      destruct f; try discriminate. now exists s.
    + left. now injection E as ->.
    + now right; left.
    + do 4 right; left. injection E as E.
      apply negb_false_iff, String.eqb_eq in E. now subst.
    + do 5 right. exists l. split; [reflexivity|].
      revert E. unfold bind, get_list.
      destruct (lists st !! l) as [[|x xs]|]; now intros [=].
  - intros [->|[->|[->|[[s ->]|[->|[l [-> H]]]]]]]; try reflexivity.
    simpl. unfold bind. now rewrite (get_list_ok _ _ _ H).
Qed.

(** The refutation of C1 as it is stated: with the test [0] and with the
    test [(quote ())] the alternative is evaluated. *)
Lemma if_zero_takes_alternative :
  fst (run 3 "(if 0 1 2)" initial_state) = Ok (VInt 2) /\
  fst (run 3 "(if (quote ()) 1 2)" initial_state) = Ok (VInt 2).
Proof. split; vm_compute; reflexivity. Qed.

(** C1, amended.  An [if] form whose test is not the symbol [->] evaluates
    its consequent exactly when the value of the test is true for the host:
    [False], [None], a zero number, the empty [str] and the empty [list] are
    false and select the alternative, which [(if 0 a b)] and
    [(if (quote ()) a b)] therefore evaluate. *)
Theorem if_branch_by_host_truth :
  forall (n : nat) (l : loc) (test conseq alt : value) (env : loc) (st : state),
    lists st !! l = Some [VStr "if"; test; conseq; alt] ->
    test <> VStr "->" ->
    (forall t st1 b,
        eval n test env st = (Ok t, st1) -> truthy t st1 = (Ok b, st1) ->
        eval (S n) (VList l) env st = eval n (if b then conseq else alt) env st1)
    /\ (forall t st1,
        eval n test env st = (Ok t, st1) -> falsy st1 t ->
        eval (S n) (VList l) env st = eval n alt env st1)
    /\ (test = VInt 0 ->
        eval (S (S n)) (VList l) env st = eval (S n) alt env st)
    /\ (forall q k,
        test = VList q -> lists st !! q = Some [VStr "quote"; VList k] ->
        lists st !! k = Some [] ->
        eval (S (S n)) (VList l) env st = eval (S n) alt env st).
Proof.
  intros n l test conseq alt env st H Hne.
  assert (Hs : is_sym "->" test = false).
  { destruct (is_sym "->" test) eqn:E; [|reflexivity].
    now apply is_sym_true in E. }
  assert (A : forall m t st1 b,
             eval m test env st = (Ok t, st1) -> truthy t st1 = (Ok b, st1) ->
             eval (S m) (VList l) env st
             = eval m (if b then conseq else alt) env st1).
  { intros m t st1 b Ht Hb. rewrite (eval_list _ _ _ _ _ H), Hs.
    unfold dispatch. simpl.
    rewrite (bind_ok _ _ _ _ _ Ht). now rewrite (bind_ok _ _ _ _ _ Hb). }
  repeat split.
  - apply A.
  - intros t st1 Ht Hf. apply truthy_false in Hf. apply (A n t st1 false Ht Hf).
  - intros ->. now apply (A (S n) (VInt 0) st false).
  - intros q k -> Hq Hk. apply (A (S n) (VList k) st false).
    + now rewrite (eval_list _ _ _ _ _ Hq).
    + apply truthy_false. do 5 right. now exists k.
Qed.

(** C1, amended, on the text [(if (quote ()) 1 2)]. *)
Lemma if_branch_by_host_truth_witness :
  let st := State [[VStr "if"; VList 1; VInt 1; VInt 2];
                   [VStr "quote"; VList 2]; []] [standard_env] in
  eval 3 (VList 0) global_env st = eval 2 (VInt 2) global_env st.
Proof.
  intros st.
  apply (if_branch_by_host_truth 1 0 (VList 1) (VInt 1) (VInt 2) global_env st)
    with (q := 1) (k := 2); [reflexivity|discriminate|reflexivity..].
Defined.

(** ** Rules of evaluation *)

Lemma mapM_nil {A B} (f : A -> M B) st : mapM f [] st = (Ok [], st).
Proof. reflexivity. Qed.

Lemma mapM_cons {A B} (f : A -> M B) a l st b st1 bs st2 :
  f a st = (Ok b, st1) -> mapM f l st1 = (Ok bs, st2) ->
  mapM f (a :: l) st = (Ok (b :: bs), st2).
Proof.
  intros Ha Hl. simpl. rewrite (bind_ok _ _ _ _ _ Ha).
  now rewrite (bind_ok _ _ _ _ _ Hl).
Qed.

Lemma mapM_raise {A B} (f : A -> M B) a l st e st1 :
  f a st = (Raise e, st1) -> mapM f (a :: l) st = (Raise e, st1).
Proof. intros Ha. simpl. now rewrite (bind_raise _ _ _ _ _ Ha). Qed.

Lemma mapM_cons_raise {A B} (f : A -> M B) a l st b st1 e st2 :
  f a st = (Ok b, st1) -> mapM f l st1 = (Raise e, st2) ->
  mapM f (a :: l) st = (Raise e, st2).
Proof.
  intros Ha Hl. simpl. rewrite (bind_ok _ _ _ _ _ Ha).
  now rewrite (bind_raise _ _ _ _ _ Hl).
Qed.

Lemma Env_find_here n e s st o v :
  envs st !! e = Some o -> table o !! s = Some v ->
  Env_find (S n) e s st = (Ok e, st).
Proof.
  intros He Hs. simpl. unfold bind. rewrite (get_env_ok _ _ _ He).
  now rewrite Hs.
Qed.

Lemma Env_find_outer n e s st o e' r :
  envs st !! e = Some o -> table o !! s = None -> outer o = Some e' ->
  Env_find n e' s st = r ->
  Env_find (S n) e s st = r.
Proof.
  intros He Hs Ho Hr. simpl. unfold bind. rewrite (get_env_ok _ _ _ He).
  now rewrite Hs, Ho.
Qed.

Lemma Env_setitem_ok e var v st o :
  envs st !! e = Some o ->
  Env_setitem e var v st = (Ok tt, assigned e o var v st).
Proof.
  intros He. unfold Env_setitem, bind. now rewrite (get_env_ok _ _ _ He).
Qed.

(** A symbol evaluates to the value found in the scope that [find]
    returns. *)
Lemma eval_symbol_found n s env st e o v :
  Env_find n env s st = (Ok e, st) ->
  envs st !! e = Some o -> table o !! s = Some v ->
  eval (S n) (VStr s) env st = (Ok v, st).
Proof.
  intros Hf He Hs. rewrite eval_symbol, (bind_ok _ _ _ _ _ Hf).
  unfold Env_getitem, bind. rewrite (get_env_ok _ _ _ He). now rewrite Hs.
Qed.

Lemma special_false op :
  special op = false ->
  is_sym "quote" op = false /\ is_sym "if" op = false /\
  is_sym "define" op = false /\ is_sym "set!" op = false /\
  is_sym "->" op = false.
Proof.
  unfold special. intros H.
  repeat (apply orb_false_iff in H as [H ?]). now repeat split.
Qed.

(** [define] binds in the scope [env] itself. *)
Lemma eval_define n l var exp env st v st1 o :
  lists st !! l = Some [VStr "define"; VStr var; exp] ->
  var <> "->" ->
  eval n exp env st = (Ok v, st1) ->
  envs st1 !! env = Some o ->
  eval (S n) (VList l) env st = (Ok VNone, assigned env o var v st1).
Proof.
  intros Hl Hne He Ho. rewrite (eval_list _ _ _ _ _ Hl).
  replace (is_sym "->" (VStr var)) with false
    by (symmetry; now apply is_sym_str).
  unfold dispatch. simpl. rewrite (bind_ok _ _ _ _ _ He). simpl.
  unfold bind at 1, lift.
  now rewrite (bind_ok _ _ _ _ _ (Env_setitem_ok _ _ _ _ _ Ho)).
Qed.

(** [set!] overwrites in the scope that [find] returns. *)
Lemma eval_set n l var exp env st v st1 e o :
  lists st !! l = Some [VStr "set!"; VStr var; exp] ->
  var <> "->" ->
  eval n exp env st = (Ok v, st1) ->
  Env_find n env var st1 = (Ok e, st1) ->
  envs st1 !! e = Some o ->
  eval (S n) (VList l) env st = (Ok VNone, assigned e o var v st1).
Proof.
  intros Hl Hne He Hf Ho. rewrite (eval_list _ _ _ _ _ Hl).
  replace (is_sym "->" (VStr var)) with false
    by (symmetry; now apply is_sym_str).
  unfold dispatch. simpl. rewrite (bind_ok _ _ _ _ _ He). simpl.
  unfold bind at 1, lift. rewrite (bind_ok _ _ _ _ _ Hf).
  now rewrite (bind_ok _ _ _ _ _ (Env_setitem_ok _ _ _ _ _ Ho)).
Qed.

(** A procedure literal captures the location of [env]. *)
Lemma eval_procedure n l parms body env st :
  lists st !! l = Some [VStr "->"; parms; body] ->
  parms <> VStr "->" ->
  eval (S n) (VList l) env st = (Ok (VProc parms body env), st).
Proof.
  intros Hl Hne. rewrite (eval_list _ _ _ _ _ Hl).
  destruct (is_sym "->" parms) eqn:E; [now apply is_sym_true in E|].
  reflexivity.
Qed.

(** A procedure call evaluates the operator, then the operands from left to
    right, then calls. *)
Lemma eval_call n l op a0 rest env st proc st1 vals st2 :
  lists st !! l = Some (op :: a0 :: rest) ->
  is_sym "->" a0 = false -> special op = false ->
  eval n op env st = (Ok proc, st1) ->
  mapM (fun arg => eval n arg env) (a0 :: rest) st1 = (Ok vals, st2) ->
  eval (S n) (VList l) env st = call (eval n) proc vals st2.
Proof.
  intros Hl Ha Hop Hp Hv. rewrite (eval_list _ _ _ _ _ Hl), Ha.
  apply special_false in Hop as (H1 & H2 & H3 & H4 & H5).
  unfold dispatch. rewrite H1, H2, H3, H4, H5, (bind_ok _ _ _ _ _ Hp).
  now rewrite (bind_ok _ _ _ _ _ Hv).
Qed.

(** An operand that raises ends the call before the procedure is called. *)
Lemma eval_call_raise n l op a0 rest env st proc st1 e st2 :
  lists st !! l = Some (op :: a0 :: rest) ->
  is_sym "->" a0 = false -> special op = false ->
  eval n op env st = (Ok proc, st1) ->
  mapM (fun arg => eval n arg env) (a0 :: rest) st1 = (Raise e, st2) ->
  eval (S n) (VList l) env st = (Raise e, st2).
Proof.
  intros Hl Ha Hop Hp Hv. rewrite (eval_list _ _ _ _ _ Hl), Ha.
  apply special_false in Hop as (H1 & H2 & H3 & H4 & H5).
  unfold dispatch. rewrite H1, H2, H3, H4, H5, (bind_ok _ _ _ _ _ Hp).
  now rewrite (bind_raise _ _ _ _ _ Hv).
Qed.

(** ** Names that no scope binds *)

Lemma Env_find_unbound st var d e :
  unbound st var d e ->
  forall n, d <= n -> Env_find n e var st = (Raise AttributeError, st).
Proof.
  induction 1 as [e o He Ht Ho|d e o e' He Ht Ho _ IH]; intros [|n] Hn; try lia;
    simpl; unfold bind; rewrite (get_env_ok _ _ _ He), Ht, Ho.
  - reflexivity.
  - apply IH. lia.
Qed.

(** [(set! -> 5)] is no assignment: its second element is [->], so it is
    the infix form of a procedure, whether a scope binds [->] or not. *)
Lemma set_arrow_returns_procedure :
  unbound initial_state "->" 1 global_env /\
  fst (run 2 "(set! -> 5)" initial_state)
    = Ok (VProc (VStr "set!") (VInt 5) global_env).
Proof.
  split; [|vm_compute; reflexivity].
  apply (unbound_root _ _ _ standard_env); reflexivity.
Qed.

(** C4.  When no scope of the chain binds a name, the chain is exhausted at
    the root, whose [outer] is [None], and the failure is the
    [AttributeError] of [None.find]: the code has no other error for an
    unbound name.  The evaluation of the symbol raises it; so does the
    assignment [env.find(var)[var] = v] of [set!], for every name; and so
    does the evaluation of the list [(set! var exp)] once [exp] has its
    value, unless [var] is [->], where the list is not an assignment but the
    infix form of a procedure and is evaluated as such.  The stores are left
    as they were. *)
Theorem unbound_name_fails :
  forall (st : state) (var : string) (d : nat) (env : loc),
    unbound st var d env ->
    (forall n, d <= n ->
        eval (S n) (VStr var) env st = (Raise AttributeError, st)) /\
    (forall n v, d <= n ->
        (let* e := Env_find n env var in Env_setitem e var v) st
          = (Raise AttributeError, st)) /\
    (forall n l exp v st0,
        d <= n ->
        lists st0 !! l = Some [VStr "set!"; VStr var; exp] ->
        eval n exp env st0 = (Ok v, st) ->
        eval (S n) (VList l) env st0
        = if String.eqb var "->"
          then eval n (VList l) env (swapped l (VStr "set!") [exp] st0)
          else (Raise AttributeError, st)).
Proof.
  intros st var d env U. repeat split.
  - intros n Hn. rewrite eval_symbol.
    apply bind_raise. now apply (Env_find_unbound _ _ _ _ U).
  - intros n v Hn. apply bind_raise. now apply (Env_find_unbound _ _ _ _ U).
  - intros n l exp v st0 Hn Hl He.
    rewrite (eval_list _ _ _ _ _ Hl).
    destruct (String.eqb_spec var "->") as [->|Hne]; [reflexivity|].
    replace (is_sym "->" (VStr var)) with false
      by (symmetry; now apply is_sym_str).
    unfold dispatch. simpl. rewrite (bind_ok _ _ _ _ _ He). simpl.
    unfold bind at 1, lift. unfold bind at 1.
    now rewrite (Env_find_unbound _ _ _ _ U n Hn).
Qed.

(** C4 on [y] and [(set! y 1)] at start-up. *)
Lemma unbound_name_fails_witness :
  let st := State [[VStr "set!"; VStr "y"; VInt 1]] [standard_env] in
  eval 2 (VStr "y") global_env st = (Raise AttributeError, st) /\
  eval 2 (VList 0) global_env st = (Raise AttributeError, st).
Proof.
  intros st.
  assert (U : unbound st "y" 1 global_env)
    by (apply (unbound_root _ _ _ standard_env); reflexivity).
  destruct (unbound_name_fails st "y" 1 global_env U) as [H1 [_ H3]].
  split.
  - apply H1. lia.
  - apply (H3 1 0 (VInt 1) (VInt 1) st); [lia|reflexivity..].
Defined.

(** ** The scope of a call *)

Lemma update_zip_names ps : forall args t,
  update_zip t (map VStr ps) args
  = Ok (foldl (fun t kv => <[kv.1 := kv.2]> t) t (zip ps args)).
Proof.
  induction ps as [|p ps IH]; intros [|a args] t; try reflexivity.
  simpl. apply IH.
Qed.

Lemma foldl_insert_dom ps : forall (args : list value) (t : gmap string value),
  dom (foldl (fun t kv => <[kv.1 := kv.2]> t) t (zip ps args))
  = dom t ∪ list_to_set (take (length args) ps).
Proof.
  induction ps as [|p ps IH]; intros [|a args] t; simpl;
    rewrite ?take_nil; simpl; rewrite ?(right_id_L ∅ (∪)); try reflexivity.
  rewrite IH, dom_insert_L. now rewrite (comm_L (∪) {[p]}), <- (assoc_L (∪)).
Qed.

Lemma foldl_insert_other ps : forall (args : list value)
    (t : gmap string value) p,
  p ∉ take (length args) ps ->
  foldl (fun t kv => <[kv.1 := kv.2]> t) t (zip ps args) !! p = t !! p.
Proof.
  induction ps as [|q ps IH]; intros [|a args] t p Hp; simpl; try reflexivity.
  simpl in Hp. apply not_elem_of_cons in Hp as [Hq Hp].
  rewrite IH by exact Hp. now apply lookup_insert_ne.
Qed.

Lemma foldl_insert_nodup ps : forall (args : list value)
    (t : gmap string value) i p a,
  NoDup ps -> ps !! i = Some p -> args !! i = Some a ->
  foldl (fun t kv => <[kv.1 := kv.2]> t) t (zip ps args) !! p = Some a.
Proof.
  induction ps as [|q ps IH]; intros [|b args] t i p a Hnd Hp Ha;
    try discriminate.
  apply NoDup_cons in Hnd as [Hq Hnd]. destruct i as [|i]; simpl in *.
  - injection Hp as ->. injection Ha as ->.
    rewrite foldl_insert_other; [apply lookup_insert_eq|].
    intros Hin. apply Hq. eapply subseteq_take, Hin.
  - now apply (IH args _ i).
Qed.

(** The call of a procedure whose parameters are symbols evaluates the body
    in a new scope. *)
Lemma call_scope (ev : value -> loc -> M value) l ps body env args st :
  lists st !! l = Some (map VStr ps) ->
  call ev (VProc (VList l) body env) args st
  = ev body (length (envs st)) (entered ps args env st).
Proof.
  intros H. simpl. unfold Procedure_call, Env_init, iter_value.
  unfold bind at 1. unfold bind at 1. rewrite (get_list_ok _ _ _ H).
  unfold bind at 1, lift. now rewrite update_zip_names.
Qed.

(** The refutation of C5 as it is stated: a procedure of one parameter
    called with two arguments, and one of two parameters called with one
    argument, return. *)
Lemma call_with_other_count_returns :
  fst (run 4 "((-> (x) x) 1 2)" initial_state) = Ok (VInt 1) /\
  fst (run 4 "((-> (x y) x) 1)" initial_state) = Ok (VInt 1).
Proof. split; vm_compute; reflexivity. Qed.

(** C5, amended.  The call of a procedure whose parameters are symbols
    raises nothing while its scope is built, whatever the number of
    arguments: the names are paired with the arguments up to the shorter
    of the two, the arguments in excess are dropped and the names in excess
    are not bound in the new scope, whose outer scope is the captured one;
    the body is evaluated there. *)
Theorem call_binds_up_to_shorter :
  forall (ev : value -> loc -> M value) (l : loc) (ps : list string)
         (body : value) (env : loc) (args : list value) (st : state),
    lists st !! l = Some (map VStr ps) ->
    call ev (VProc (VList l) body env) args st
      = ev body (length (envs st)) (entered ps args env st) /\
    dom (bound_table ps args) = list_to_set (take (length args) ps) /\
    (NoDup ps -> forall i p a,
        ps !! i = Some p -> args !! i = Some a ->
        bound_table ps args !! p = Some a).
Proof.
  intros ev l ps body env args st H. repeat split.
  - now apply call_scope.
  - unfold bound_table. rewrite foldl_insert_dom, dom_empty_L.
    apply (left_id_L ∅ (∪)).
  - intros Hnd i p a Hp Ha. now apply (foldl_insert_nodup ps args ∅ i).
Qed.

(** C5, amended, on [((-> (x y) x) 1)]: [y] is left unbound. *)
Lemma call_binds_up_to_shorter_witness :
  let st := State [[VStr "x"; VStr "y"]] [standard_env] in
  call (eval 1) (VProc (VList 0) (VStr "x") global_env) [VInt 1] st
    = eval 1 (VStr "x") 1 (entered ["x"; "y"] [VInt 1] global_env st) /\
  dom (bound_table ["x"; "y"] [VInt 1]) = list_to_set (take 1 ["x"; "y"]).
Proof.
  intros st.
  destruct (call_binds_up_to_shorter (eval 1) 0 ["x"; "y"] (VStr "x")
              global_env [VInt 1] st eq_refl) as [H1 [H2 _]].
  split; [exact H1|exact H2].
Defined.


(** ** Programs *)

(** The reader on the three programs below; the store of lists is empty
    when [parse] is called. *)
Lemma parse_shadowing E :
  parse "(begin (define x 1) ((-> (x) x) 2))" (State [] E) =
  (Ok (VList 0),
   State [[VStr "begin"; VList 1; VList 2]; [VStr "define"; VStr "x"; VInt 1];
          [VList 3; VInt 2]; [VStr "->"; VList 4; VStr "x"]; [VStr "x"]] E).
Proof. vm_compute. reflexivity. Qed.

Lemma parse_mutation E :
  parse "(begin (define x 1) (define f (-> () x)) (set! x 2) (f))"
        (State [] E) =
  (Ok (VList 0),
   State [[VStr "begin"; VList 1; VList 2; VList 5; VList 6];
          [VStr "define"; VStr "x"; VInt 1];
          [VStr "define"; VStr "f"; VList 3];
          [VStr "->"; VList 4; VStr "x"]; [];
          [VStr "set!"; VStr "x"; VInt 2]; [VStr "f"]] E).
Proof. vm_compute. reflexivity. Qed.

Lemma parse_mutation_one E :
  parse "(begin (define x 1) (define f (-> (y) x)) (set! x 2) (f 0))"
        (State [] E) =
  (Ok (VList 0),
   State [[VStr "begin"; VList 1; VList 2; VList 5; VList 6];
          [VStr "define"; VStr "x"; VInt 1];
          [VStr "define"; VStr "f"; VList 3];
          [VStr "->"; VList 4; VStr "x"]; [VStr "y"];
          [VStr "set!"; VStr "x"; VInt 2]; [VStr "f"; VInt 0]] E).
Proof. vm_compute. reflexivity. Qed.

(** The lookup of a name in a table built by insertions. *)
Ltac lookup_table :=
  cbn [table outer]; rewrite ?lookup_insert_ne by discriminate;
  first [apply lookup_insert_eq | eassumption | reflexivity].
Ltac find_here := eapply Env_find_here; [reflexivity|lookup_table].
Ltac found :=
  eapply eval_symbol_found; [find_here|reflexivity|lookup_table].
Ltac constant := apply eval_constant; exact I.

(** C7. In a root environment that binds [begin], the program
    [(begin (define x 1) ((-> (x) x) 2))] returns 2 with every budget of at
    least 4: the parameter [x] is bound to 2 in a new scope whose outer
    scope is the root, where [x] is still 1. *)
Theorem parameter_shadows_define :
  forall (T : gmap string value) (n : nat),
    T !! "begin" = Some (VBuiltin BBegin) ->
    exists st,
      run (4 + n) "(begin (define x 1) ((-> (x) x) 2))"
          (State [] [MkEnv T None]) = (Ok (VInt 2), st) /\
      envs st = [MkEnv (<["x" := VInt 1]> T) None;
                 MkEnv {["x" := VInt 2]} (Some global_env)].
Proof.
  intros T n HT. eexists. split.
  - unfold run. rewrite (bind_ok _ _ _ _ _ (parse_shadowing _)).
    change (4 + n) with (S (S (S (S n)))).
    erewrite eval_call; [|reflexivity..| |].
    2:{ found. }
    2:{ eapply mapM_cons.
        - eapply eval_define; [reflexivity|discriminate|constant|reflexivity].
        - eapply mapM_cons; [|apply mapM_nil].
          erewrite eval_call; [|reflexivity..| |].
          2:{ apply eval_procedure; [reflexivity|discriminate]. }
          2:{ eapply mapM_cons; [constant|apply mapM_nil]. }
          rewrite (call_scope _ 4 ["x"]) by reflexivity. found. }
    reflexivity.
  - reflexivity.
Qed.

(** C7 at start-up. *)
Lemma parameter_shadows_define_witness :
  exists st,
    run 4 "(begin (define x 1) ((-> (x) x) 2))" initial_state
      = (Ok (VInt 2), st) /\
    envs st = [MkEnv (<["x" := VInt 1]> standard_table) None;
               MkEnv {["x" := VInt 2]} (Some global_env)].
Proof.
  apply (parameter_shadows_define standard_table 0). reflexivity.
Defined.

(** The environment is captured by reference: with a procedure of one
    parameter, the assignment made after the procedure was created is seen
    when it is called. *)
Lemma closure_sees_assignment (T : gmap string value) (n : nat) :
  T !! "begin" = Some (VBuiltin BBegin) ->
  fst (run (5 + n) "(begin (define x 1) (define f (-> (y) x)) (set! x 2) (f 0))"
           (State [] [MkEnv T None])) = Ok (VInt 2).
Proof.
  intros HT. unfold run. rewrite (bind_ok _ _ _ _ _ (parse_mutation_one _)).
  change (5 + n) with (S (S (S (S (S n))))).
  erewrite eval_call; [|reflexivity..| |].
  2:{ found. }
  2:{ eapply mapM_cons.
      { eapply eval_define; [reflexivity|discriminate|constant|reflexivity]. }
      eapply mapM_cons.
      { eapply eval_define;
          [reflexivity|discriminate
          |apply eval_procedure; [reflexivity|discriminate]|reflexivity]. }
      eapply mapM_cons.
      { eapply eval_set;
          [reflexivity|discriminate|constant
          |find_here|reflexivity]. }
      eapply mapM_cons; [|apply mapM_nil].
      erewrite eval_call; [|reflexivity..| |].
      2:{ found. }
      2:{ eapply mapM_cons; [constant|apply mapM_nil]. }
      rewrite (call_scope _ 4 ["y"]) by reflexivity.
      eapply eval_symbol_found;
        [eapply Env_find_outer; [reflexivity..|find_here]
        |reflexivity|lookup_table]. }
  reflexivity.
Qed.

(** C2, on the code.  The program of the claim does not return 2: its last
    operand [(f)] is a list of one element, and [args[0]] raises
    [IndexError] before [f] is looked up. *)
Theorem zero_operand_call_raises :
  forall (T : gmap string value) (n : nat),
    T !! "begin" = Some (VBuiltin BBegin) ->
    fst (run (3 + n) "(begin (define x 1) (define f (-> () x)) (set! x 2) (f))"
             (State [] [MkEnv T None])) = Raise IndexError.
Proof.
  intros T n HT. unfold run. rewrite (bind_ok _ _ _ _ _ (parse_mutation _)).
  change (3 + n) with (S (S (S n))).
  erewrite eval_call_raise; [reflexivity|reflexivity..| |].
  { found. }
  eapply mapM_cons_raise.
  { eapply eval_define; [reflexivity|discriminate|constant|reflexivity]. }
  eapply mapM_cons_raise.
  { eapply eval_define;
      [reflexivity|discriminate
      |apply eval_procedure; [reflexivity|discriminate]|reflexivity]. }
  eapply mapM_cons_raise.
  { eapply eval_set;
      [reflexivity|discriminate|constant
      |find_here|reflexivity]. }
  apply mapM_raise. now erewrite eval_list by reflexivity.
Qed.

(** C2 at start-up. *)
Lemma zero_operand_call_raises_witness :
  fst (run 3 "(begin (define x 1) (define f (-> () x)) (set! x 2) (f))"
           initial_state) = Raise IndexError.
Proof. apply (zero_operand_call_raises standard_table 0). reflexivity. Defined.

(** C6, on the code.  On ["(+ 1 2"] the reader raises [IndexError] at
    [tokens[0]] in the condition of its loop; the [SyntaxError] of
    ['unexpected EOF'] is raised only when [read_from_tokens] is entered
    without a token, as on the empty text. *)
Theorem unbalanced_raises_index_error :
  forall (E : list Env),
    fst (parse "(+ 1 2" (State [] E)) = Raise IndexError /\
    fst (parse "" (State [] E)) = Raise (SyntaxError "unexpected EOF") /\
    fst (parse ")" (State [] E)) = Raise (SyntaxError "unexpected )").
Proof. intros E. repeat split; vm_compute; reflexivity. Qed.

(** ** Division *)

Section Rounding.
Local Open Scope Z_scope.

(** The number of binary digits, and the right shifts of the rounding of
    [SpecFloat]. *)
Lemma digits2_pos_bounds p :
  2 ^ (Zpos (digits2_pos p) - 1) <= Zpos p < 2 ^ Zpos (digits2_pos p).
Proof.
  induction p as [p IH|p IH|]; simpl digits2_pos; [| |simpl; lia];
    rewrite Pos2Z.inj_succ;
    replace (Z.succ (Zpos (digits2_pos p)) - 1) with (Z.succ (Zpos (digits2_pos p) - 1)) by lia;
    rewrite !Z.pow_succ_r by lia; lia.
Qed.

Lemma Zdigits2_le m k : 0 <= m -> 0 <= k -> m < 2 ^ k -> Zdigits2 m <= k.
Proof.
  intros Hm Hk H. destruct m as [|p|p]; simpl; try lia.
  destruct (Z_le_gt_dec (Zpos (digits2_pos p)) k) as [|G]; [assumption|exfalso].
  pose proof (digits2_pos_bounds p) as [B _].
  assert (2 ^ k <= 2 ^ (Zpos (digits2_pos p) - 1)) by (apply Z.pow_le_mono_r; lia).
  lia.
Qed.

Lemma Zdigits2_lt m : 0 <= m -> m < 2 ^ Zdigits2 m.
Proof.
  intros Hm. destruct m as [|p|p]; simpl; try lia. apply digits2_pos_bounds.
Qed.

Lemma Zdigits2_nonneg m : 0 <= Zdigits2 m.
Proof. destruct m; simpl; lia. Qed.

Lemma Zdigits2_succ m : 0 <= m -> Zdigits2 (m + 1) <= Zdigits2 m + 1.
Proof.
  intros Hm. pose proof (Zdigits2_nonneg m). pose proof (Zdigits2_lt m Hm).
  apply Zdigits2_le; try lia. rewrite Z.pow_add_r by lia. lia.
Qed.

Lemma Zdigits2_mono m n : 0 <= m <= n -> Zdigits2 m <= Zdigits2 n.
Proof.
  intros H. pose proof (Zdigits2_nonneg n). pose proof (Zdigits2_lt n).
  apply Zdigits2_le; lia.
Qed.

Lemma Zdigits2_shiftr m n :
  0 <= m -> 0 <= n -> Zdigits2 (m / 2 ^ n) <= Z.max (Zdigits2 m - n) 0.
Proof.
  intros Hm Hn. pose proof (Zdigits2_nonneg m). pose proof (Zdigits2_lt m Hm).
  assert (0 < 2 ^ n) by (apply Z.pow_pos_nonneg; lia).
  assert (0 <= m / 2 ^ n) by (apply Z.div_pos; lia).
  apply Zdigits2_le; try lia.
  apply Z.div_lt_upper_bound; [lia|].
  destruct (Z_le_gt_dec n (Zdigits2 m)).
  - rewrite Z.max_l by lia. rewrite <- Z.pow_add_r by lia.
    now replace (n + (Zdigits2 m - n)) with (Zdigits2 m) by lia.
  - rewrite Z.max_r by lia. rewrite Z.pow_0_r, Z.mul_1_r.
    assert (2 ^ Zdigits2 m <= 2 ^ n) by (apply Z.pow_le_mono_r; lia). lia.
Qed.

Lemma Zdigits2_shiftl m n :
  0 <= m -> 0 <= n -> Zdigits2 (m * 2 ^ n) <= Zdigits2 m + n.
Proof.
  intros Hm Hn. pose proof (Zdigits2_nonneg m). pose proof (Zdigits2_lt m Hm).
  assert (0 < 2 ^ n) by (apply Z.pow_pos_nonneg; lia).
  apply Zdigits2_le; try nia. rewrite Z.pow_add_r by lia. nia.
Qed.

Lemma shr_1_m r : 0 <= shr_m r -> shr_m (shr_1 r) = shr_m r / 2.
Proof.
  destruct r as [m b s]. simpl. intros Hm.
  destruct m as [|[p|p|]|p]; simpl; try lia; try reflexivity.
  - change (Zpos p~1) with (2 * Zpos p + 1). apply Z.div_unique with 1; lia.
  - change (Zpos p~0) with (2 * Zpos p). apply Z.div_unique with 0; lia.
Qed.

Lemma iter_shr_1_m p : forall r,
  0 <= shr_m r -> shr_m (SpecFloat.iter_pos shr_1 p r) = shr_m r / 2 ^ Zpos p.
Proof.
  assert (D : forall r, 0 <= shr_m r -> 0 <= shr_m (shr_1 r)).
  { intros r H. rewrite shr_1_m by easy. apply Z.div_pos; lia. }
  induction p as [p IH|p IH|]; intros r Hr; simpl SpecFloat.iter_pos.
  - assert (0 < 2 ^ Zpos p) by (apply Z.pow_pos_nonneg; lia).
    rewrite IH, IH, shr_1_m; auto.
    + rewrite !Z.div_div by lia. f_equal.
      replace (Zpos p~1) with (1 + (Zpos p + Zpos p)) by lia.
      rewrite !Z.pow_add_r by lia. lia.
    + rewrite IH by auto. apply Z.div_pos; auto.
  - assert (0 < 2 ^ Zpos p) by (apply Z.pow_pos_nonneg; lia).
    rewrite IH, IH; auto.
    + rewrite Z.div_div by lia. f_equal.
      replace (Zpos p~0) with (Zpos p + Zpos p) by lia.
      now rewrite Z.pow_add_r by lia.
    + rewrite IH by auto. apply Z.div_pos; auto.
  - now rewrite shr_1_m.
Qed.

Lemma fexp_le d : SpecFloat.fexp prec emax d <= Z.max (d - 53) (-1074).
Proof. unfold fexp, SpecFloat.emin, prec, emax. lia. Qed.

(** One step of normalisation: the mantissa stays non-negative, and neither the
    exponent nor the position of the leading bit exceeds what [fexp] allows. *)
Lemma shr_fexp_bound m e l :
  0 <= m ->
  let r := shr_fexp prec emax m e l in
  0 <= shr_m (fst r) /\
  snd r <= Z.max e (Z.max (Zdigits2 m + e - 53) (-1074)) /\
  Zdigits2 (shr_m (fst r)) + snd r <= Z.max (Zdigits2 m + e) (snd r).
Proof.
  intros Hm. unfold shr_fexp, shr.
  pose proof (fexp_le (Zdigits2 m + e)) as F.
  assert (M : shr_m (shr_record_of_loc m l) = m) by now destruct l as [|[]].
  destruct (fexp prec emax (Zdigits2 m + e) - e) as [|p|p] eqn:E; simpl;
    rewrite ?M; try (split; [lia|split; lia]).
  rewrite iter_shr_1_m by (rewrite M; lia). rewrite M.
  assert (0 < 2 ^ Zpos p) by (apply Z.pow_pos_nonneg; lia).
  pose proof (Zdigits2_shiftr m (Zpos p) Hm ltac:(lia)).
  split; [apply Z.div_pos; lia|]. split; lia.
Qed.

Lemma round_nearest_even_bound m l :
  0 <= m -> m <= round_nearest_even m l <= m + 1.
Proof. intros Hm. destruct l as [|[]]; simpl; try lia. destruct (Z.even m); lia. Qed.

(** Rounding a non-negative mantissa whose leading bit is below [2^1023]
    does not overflow. *)
Lemma binary_round_aux_finite s m e l :
  0 <= m -> Zdigits2 m + e <= 1023 -> e <= 970 ->
  forall s', binary_round_aux prec emax s m e l <> S754_infinity s'.
Proof.
  intros Hm Hd He s'. unfold binary_round_aux.
  pose proof (shr_fexp_bound m e l Hm) as (A1 & A2 & A3).
  destruct (shr_fexp prec emax m e l) as [r1 e1]. simpl in A1, A2, A3.
  pose proof (round_nearest_even_bound (shr_m r1) (loc_of_shr_record r1) A1) as R.
  set (m2 := round_nearest_even (shr_m r1) (loc_of_shr_record r1)) in *.
  assert (Hm2 : 0 <= m2) by lia.
  pose proof (shr_fexp_bound m2 e1 loc_Exact Hm2) as (B1 & B2 & B3).
  destruct (shr_fexp prec emax m2 e1 loc_Exact) as [r2 e2]. simpl in B1, B2, B3.
  assert (Zdigits2 m2 <= Zdigits2 (shr_m r1) + 1).
  { etransitivity; [apply (Zdigits2_mono m2 (shr_m r1 + 1)); lia|].
    now apply Zdigits2_succ. }
  destruct (shr_m r2); try discriminate.
  replace (e2 <=? emax - prec) with true; [discriminate|].
  symmetry. apply Z.leb_le. unfold emax, prec. lia.
Qed.

(** The rounded quotient of two positive integers is finite when the
    dividend is below [2^1023]. *)
Lemma round_quotient_finite s m d :
  Zpos m < 2 ^ 1023 -> forall s', round_quotient s m d <> S754_infinity s'.
Proof.
  intros Hm s'. unfold round_quotient, SFdiv, SFdiv_core_binary.
  set (e' := Z.min _ _).
  assert (He' : e' <= 0) by (unfold e'; lia).
  assert (Hd1 : Zdigits2 (Zpos m) <= 1023) by (apply Zdigits2_le; lia).
  set (m' := match 0 - 0 - e' with Z0 => Zpos m | Zpos _ => Z.shiftl (Zpos m) (0 - 0 - e') | Zneg _ => 0 end).
  assert (Hm' : 0 <= m' /\ Zdigits2 m' + e' <= 1023).
  { unfold m'. destruct (0 - 0 - e') as [|p|p] eqn:E; try lia.
    rewrite Z.shiftl_mul_pow2 by lia.
    assert (0 < 2 ^ Zpos p) by (apply Z.pow_pos_nonneg; lia).
    pose proof (Zdigits2_shiftl (Zpos m) (Zpos p) ltac:(lia) ltac:(lia)).
    split; [nia|lia]. }
  destruct Hm' as [Hm0 Hm1].
  pose proof (Z_div_mod m' (Zpos d) ltac:(lia)) as DM.
  destruct (Z.div_eucl m' (Zpos d)) as [q r]. destruct DM as [DM1 DM2].
  assert (Hq : 0 <= q <= m') by nia.
  apply binary_round_aux_finite; try lia.
  pose proof (Zdigits2_mono q m' Hq). lia.
Qed.

Lemma int_truediv_float a b :
  b <> 0 -> Z.abs a < 2 ^ 1023 -> exists f, int_truediv a b = Ok (VFloat f).
Proof.
  intros Hb Ha. unfold int_truediv.
  destruct b as [|b|b]; [easy| |];
    (destruct a as [|a|a]; [eauto| |]);
    match goal with
    | |- context [round_quotient ?s ?m ?d] =>
        pose proof (round_quotient_finite s m d Ha) as F;
        destruct (round_quotient s m d); eauto; exfalso; eapply F; reflexivity
    end.
Qed.

Lemma int_truediv_cases a b :
  (b = 0 /\ int_truediv a b = Raise ZeroDivisionError) \/
  (b <> 0 /\ int_truediv a b = Raise OverflowError) \/
  (b <> 0 /\ exists f, int_truediv a b = Ok (VFloat f)).
Proof.
  unfold int_truediv. destruct b as [|b|b]; [now left| |];
    (destruct a as [|a|a]; [right; right; split; [easy|eauto]| |]);
    match goal with
    | |- context [round_quotient ?s ?m ?d] =>
        destruct (round_quotient s m d);
        (right; first [left; split; [easy|reflexivity]
                      |right; split; [easy|eauto]])
    end.
Qed.

(** *** The quotient is rounded to nearest *)

Lemma new_location_spec B r :
  0 <= r < B ->
  new_location B r
  = if r =? 0 then loc_Exact else loc_Inexact (2 * r ?= B).
Proof.
  intros Hr. unfold new_location, new_location_even, new_location_odd.
  destruct (Z.even B) eqn:E; destruct (r =? 0); try reflexivity.
  f_equal. rewrite <- Z.negb_odd in E. apply negb_false_iff in E.
  apply Z.odd_spec in E as [h Hh].
  destruct (Z.compare_spec (2 * r + 1) B), (Z.compare_spec (2 * r) B);
    try reflexivity; lia.
Qed.

Lemma located_bits N D m r s :
  located N D (Build_shr_record m r s) ->
  orb r s = negb (N - m * D =? 0).
Proof.
  intros (_ & _ & H). simpl in H.
  destruct (N - m * D =? 0); destruct r, s; simpl in *; congruence.
Qed.

Lemma located_shr_1 N D mrs : located N D mrs -> located N (2 * D) (shr_1 mrs).
Proof.
  destruct mrs as [m r s]. intros H.
  pose proof (located_bits _ _ _ _ _ H) as Hb.
  destruct H as (Hm & Hr & _). simpl in Hm, Hr.
  assert (C : forall m' (b : bool),
             m = 2 * m' + (if b then 1 else 0) -> 0 <= m' ->
             located N (2 * D) (Build_shr_record m' b (orb r s))).
  { intros m' b -> Hm'. unfold located. simpl. split; [exact Hm'|].
    rewrite Hb.
    destruct b.
    - replace (N - m' * (2 * D)) with (N - (2 * m' + 1) * D + D) by lia.
      set (rho := N - (2 * m' + 1) * D) in *.
      split; [lia|].
      destruct (Z.eqb_spec rho 0) as [E|E]; simpl;
        (destruct (Z.eqb_spec (rho + D) 0); [lia|]); f_equal;
        symmetry; [apply Z.compare_eq_iff|apply Z.compare_gt_iff]; lia.
    - replace (N - m' * (2 * D)) with (N - (2 * m' + 0) * D) by lia.
      set (rho := N - (2 * m' + 0) * D) in *.
      split; [lia|].
      destruct (Z.eqb_spec rho 0) as [E|E]; simpl; [reflexivity|].
      f_equal. symmetry. apply Z.compare_lt_iff. lia. }
  destruct m as [|[p|p|]|p]; try lia; simpl.
  - apply (C 0 false); lia.
  - apply (C (Zpos p) true); lia.
  - apply (C (Zpos p) false); lia.
  - apply (C 0 true); lia.
Qed.

Lemma located_iter N p : forall D mrs,
  located N D mrs -> located N (2 ^ Zpos p * D) (SpecFloat.iter_pos shr_1 p mrs).
Proof.
  induction p as [p IH|p IH|]; intros D mrs H; simpl SpecFloat.iter_pos.
  - replace (2 ^ Zpos p~1 * D) with (2 ^ Zpos p * (2 ^ Zpos p * (2 * D))).
    + apply IH, IH, located_shr_1, H.
    + replace (Zpos p~1) with (1 + (Zpos p + Zpos p)) by lia.
      rewrite !Z.pow_add_r by lia. lia.
  - replace (2 ^ Zpos p~0 * D) with (2 ^ Zpos p * (2 ^ Zpos p * D)).
    + apply IH, IH, H.
    + replace (Zpos p~0) with (Zpos p + Zpos p) by lia.
      rewrite Z.pow_add_r by lia. lia.
  - replace (2 ^ 1 * D) with (2 * D) by lia. apply located_shr_1, H.
Qed.

Lemma located_of_loc N D q :
  0 <= q -> 0 <= N - q * D < D ->
  located N D (shr_record_of_loc q (new_location D (N - q * D))).
Proof.
  intros Hq Hr. rewrite new_location_spec by exact Hr.
  assert (M : forall l, shr_m (shr_record_of_loc q l) = q) by now intros [|[]].
  unfold located. rewrite M. split; [exact Hq|]. split; [exact Hr|].
  destruct (N - q * D =? 0); [reflexivity|].
  now destruct (2 * (N - q * D) ?= D).
Qed.

Lemma located_round N D mrs :
  located N D mrs ->
  nearest_even N D (round_nearest_even (shr_m mrs) (loc_of_shr_record mrs)).
Proof.
  intros (Hm & Hr & Hl). rewrite Hl. set (m := shr_m mrs) in *.
  set (rho := N - m * D) in *. unfold nearest_even.
  destruct (Z.eqb_spec rho 0) as [E|E]; simpl.
  { replace (2 * N - 2 * m * D) with (2 * rho) by lia. split; lia. }
  destruct (Z.compare_spec (2 * rho) D) as [C|C|C]; simpl.
  - destruct (Z.even m) eqn:Ev.
    + replace (2 * N - 2 * m * D) with (2 * rho) by lia.
      split; [lia|now intros _].
    + replace (2 * N - 2 * (m + 1) * D) with (2 * rho - 2 * D) by lia.
      split; [lia|intros _]. rewrite Z.even_add, Ev. reflexivity.
  - replace (2 * N - 2 * m * D) with (2 * rho) by lia. split; lia.
  - replace (2 * N - 2 * (m + 1) * D) with (2 * rho - 2 * D) by lia.
    split; lia.
Qed.

Lemma scaled_factor A B e c :
  c <= 0 -> c <= e ->
  exists g, 0 < g /\ A * 2 ^ (- c) = fst (scaled A B e) * g /\
            B * 2 ^ (e - c) = snd (scaled A B e) * g.
Proof.
  intros Hc Hce. unfold scaled. destruct (Z.leb_spec 0 e) as [He|He]; simpl.
  - exists (2 ^ (- c)). split; [apply Z.pow_pos_nonneg; lia|]. split; [reflexivity|].
    replace (e - c) with (e + - c) by lia. rewrite Z.pow_add_r by lia. lia.
  - exists (2 ^ (e - c)). split; [apply Z.pow_pos_nonneg; lia|]. split; [|reflexivity].
    replace (- c) with (- e + (e - c)) by lia. rewrite Z.pow_add_r by lia. lia.
Qed.

Lemma nearest_even_scale N D g n :
  0 < g -> nearest_even (N * g) (D * g) n -> nearest_even N D n.
Proof.
  intros Hg [H1 H2]. unfold nearest_even in *.
  replace (2 * (N * g) - 2 * n * (D * g)) with ((2 * N - 2 * n * D) * g) in * by lia.
  rewrite Z.abs_mul, (Z.abs_eq g) in * by lia.
  split; [nia|]. intros E. apply H2. now rewrite E.
Qed.

Lemma Zdigits2_ge m k : 0 <= k -> 2 ^ k <= m -> k + 1 <= Zdigits2 m.
Proof.
  intros Hk H. assert (Hm : 0 < m) by (pose proof (Z.pow_pos_nonneg 2 k); lia).
  pose proof (Zdigits2_lt m ltac:(lia)) as L.
  pose proof (Zdigits2_nonneg m).
  destruct (Z_lt_le_dec k (Zdigits2 m)) as [|G]; [lia|exfalso].
  assert (2 ^ Zdigits2 m <= 2 ^ k) by (apply Z.pow_le_mono_r; lia). lia.
Qed.

Lemma Zdigits2_low m : 0 < m -> 2 ^ (Zdigits2 m - 1) <= m.
Proof. destruct m as [|p|p]; try lia. intros _. apply digits2_pos_bounds. Qed.

Lemma fexp_mono a b : a <= b -> fexp prec emax a <= fexp prec emax b.
Proof. unfold fexp, SpecFloat.emin, prec, emax. lia. Qed.

Lemma fexp_eq a : fexp prec emax a = Z.max (a - 53) (-1074).
Proof. reflexivity. Qed.

(** The rounding of [SpecFloat]: from the integer part [q] of [N / D] at the
    exponent [e0] and the position of the rest, to the nearest multiple of
    the unit in the last place. *)
Lemma binary_round_aux_spec s q e0 l N D :
  0 <= q -> located N D (shr_record_of_loc q l) ->
  e0 <= fexp prec emax (Zdigits2 q + e0) ->
  exists n2,
    nearest_even N (2 ^ (fexp prec emax (Zdigits2 q + e0) - e0) * D) n2 /\
    match binary_round_aux prec emax s q e0 l with
    | S754_zero s' => s' = s /\ n2 = 0
    | S754_finite s' mf e =>
        s' = s /\ bounded prec emax mf e = true /\
        fexp prec emax (Zdigits2 q + e0) <= e /\
        n2 = Zpos mf * 2 ^ (e - fexp prec emax (Zdigits2 q + e0))
    | S754_infinity s' =>
        s' = s /\ 0 <= fexp prec emax (Zdigits2 q + e0) /\
        2 ^ 1024 <= n2 * 2 ^ fexp prec emax (Zdigits2 q + e0)
    | S754_nan => False
    end.
Proof.
  intros Hq Hloc He0.
  assert (M : shr_m (shr_record_of_loc q l) = q) by now destruct l as [|[]].
  pose proof (Zdigits2_nonneg q) as Hdq.
  pose proof (Zdigits2_lt q Hq) as Hqlt.
  set (e' := fexp prec emax (Zdigits2 q + e0)) in *.
  assert (He'min : -1074 <= e') by (unfold e'; rewrite fexp_eq; lia).
  assert (He'dq : Zdigits2 q + e0 - 53 <= e') by (unfold e'; rewrite fexp_eq; lia).
  unfold binary_round_aux, shr_fexp. fold e'.
  (* the first shift *)
  assert (S1 : exists mrs,
             shr (shr_record_of_loc q l) e0 (e' - e0) = (mrs, e') /\
             located N (2 ^ (e' - e0) * D) mrs /\
             shr_m mrs = q / 2 ^ (e' - e0)).
  { unfold shr. destruct (e' - e0) as [|p|p] eqn:En; try lia.
    - assert (e' = e0) as -> by lia. eexists. split; [reflexivity|].
      rewrite Z.pow_0_r, Z.mul_1_l, Z.div_1_r. now split.
    - eexists. split; [f_equal; lia|]. split; [now apply located_iter|].
      rewrite iter_shr_1_m by (rewrite M; lia). now rewrite M. }
  destruct S1 as (mrs & -> & Hl1 & Hm1).
  pose proof (located_round _ _ _ Hl1) as Hn.
  assert (Hm1nn : 0 <= shr_m mrs) by apply Hl1.
  pose proof (round_nearest_even_bound (shr_m mrs) (loc_of_shr_record mrs) Hm1nn) as Hb.
  set (n2 := round_nearest_even (shr_m mrs) (loc_of_shr_record mrs)) in *.
  exists n2. split; [exact Hn|].
  assert (P1 : 0 < 2 ^ (e' - e0)) by (apply Z.pow_pos_nonneg; lia).
  assert (Hm1lt : shr_m mrs < 2 ^ 53).
  { rewrite Hm1. apply Z.div_lt_upper_bound; [lia|].
    rewrite <- Z.pow_add_r by lia.
    eapply Z.lt_le_trans; [exact Hqlt|]. apply Z.pow_le_mono_r; lia. }
  (* above the subnormal numbers the mantissa has 53 digits *)
  assert (Hnorm : e' <> -1074 -> 2 ^ 52 <= shr_m mrs).
  { intros Em.
    assert (E53 : e' = Zdigits2 q + e0 - 53)
      by (unfold e' in *; rewrite fexp_eq in *; lia).
    assert (Hqpos : 0 < q) by (destruct q; simpl in *; lia).
    pose proof (Zdigits2_low q Hqpos) as Hlow.
    rewrite Hm1. apply Z.div_le_lower_bound; [lia|].
    rewrite <- Z.pow_add_r by lia.
    replace (e' - e0 + 52) with (Zdigits2 q - 1) by lia. exact Hlow. }
  assert (Hn2 : n2 = 2 ^ 53 \/ n2 < 2 ^ 53) by lia.
  destruct Hn2 as [E|Hlt].
  - (* the rounded mantissa has one digit more *)
    rewrite E. change (Zdigits2 (2 ^ 53)) with 54.
    replace (fexp prec emax (54 + e') - e') with 1 by (rewrite fexp_eq; lia).
    assert (Hs : shr (shr_record_of_loc (2 ^ 53) loc_Exact) e' 1
                 = (Build_shr_record (Zpos 4503599627370496) false false, e' + 1))
      by reflexivity.
    rewrite Hs. cbn [shr_m].
    destruct (Z.leb_spec (e' + 1) (emax - prec)) as [Hle|Hgt].
    + split; [reflexivity|]. split.
      * unfold bounded, canonical_mantissa.
        change (Zpos (digits2_pos 4503599627370496)) with 53.
        rewrite fexp_eq. apply andb_true_iff.
        split; [apply Z.eqb_eq; lia|apply Z.leb_le; exact Hle].
      * split; [lia|]. replace (e' + 1 - e') with 1 by lia. reflexivity.
    + unfold emax, prec in Hgt. split; [reflexivity|]. split; [lia|].
      rewrite <- Z.pow_add_r by lia. apply Z.pow_le_mono_r; lia.
  - assert (Hd2 : Zdigits2 n2 <= 53) by (apply Zdigits2_le; lia).
    assert (Hs : shr (shr_record_of_loc n2 loc_Exact) e'
                   (fexp prec emax (Zdigits2 n2 + e') - e')
                 = (Build_shr_record n2 false false, e')).
    { unfold shr. rewrite fexp_eq.
      destruct (Z.max (Zdigits2 n2 + e' - 53) (-1074) - e') eqn:En; try reflexivity. lia. }
    rewrite Hs. simpl shr_m.
    destruct n2 as [|mf|mf] eqn:En2; [now split|  |lia].
    destruct (Z.leb_spec e' (emax - prec)) as [Hle|Hgt].
    + split; [reflexivity|]. split.
      * unfold bounded, canonical_mantissa. apply andb_true_iff.
        split; [|apply Z.leb_le; exact Hle]. apply Z.eqb_eq.
        change (Zpos (digits2_pos mf)) with (Zdigits2 (Zpos mf)).
        rewrite fexp_eq.
        destruct (Z.eq_dec e' (-1074)) as [Em|Em]; [lia|].
        specialize (Hnorm Em).
        pose proof (Zdigits2_ge (Zpos mf) 52 ltac:(lia) ltac:(lia)). lia.
      * split; [lia|]. rewrite Z.sub_diag. simpl. lia.
    + unfold emax, prec in Hgt. split; [reflexivity|]. split; [lia|].
      specialize (Hnorm ltac:(lia)).
      assert (2 ^ 972 <= 2 ^ e') by (apply Z.pow_le_mono_r; lia).
      replace (2 ^ 1024) with (2 ^ 52 * 2 ^ 972) by (rewrite <- Z.pow_add_r by lia; reflexivity).
      apply Z.mul_le_mono_nonneg; lia.
Qed.

Lemma binade_exists A B : 0 < A -> 0 < B -> exists k, binade A B k.
Proof.
  intros HA HB.
  pose proof (Zdigits2_low A HA) as A1. pose proof (Zdigits2_lt A ltac:(lia)) as A2.
  pose proof (Zdigits2_low B HB) as B1. pose proof (Zdigits2_lt B ltac:(lia)) as B2.
  assert (1 <= Zdigits2 A) by (destruct A; simpl in *; lia).
  assert (1 <= Zdigits2 B) by (destruct B; simpl in *; lia).
  set (d1 := Zdigits2 A) in *. set (d2 := Zdigits2 B) in *.
  set (c := Z.min 0 (d1 - d2) - 1).
  assert (Pc : 0 < 2 ^ (- c)) by (apply Z.pow_pos_nonneg; lia).
  assert (E1 : 2 ^ (d1 - c) = 2 * (2 ^ (d1 - 1) * 2 ^ (- c))).
  { replace (d1 - c) with (1 + ((d1 - 1) + - c)) by lia.
    rewrite !Z.pow_add_r by lia. lia. }
  assert (E2 : 2 ^ (d1 - c) = 2 ^ d2 * 2 ^ (d1 - d2 - c)).
  { replace (d1 - c) with (d2 + (d1 - d2 - c)) by lia.
    rewrite Z.pow_add_r by lia. lia. }
  assert (E3 : 2 ^ (d1 - c) = 2 ^ d1 * 2 ^ (- c)).
  { replace (d1 - c) with (d1 + - c) by lia. rewrite Z.pow_add_r by lia. lia. }
  assert (E4 : 2 ^ (d1 - c) = 2 ^ (d2 - 1) * 2 ^ (d1 - d2 + 1 - c)).
  { replace (d1 - c) with ((d2 - 1) + (d1 - d2 + 1 - c)) by lia.
    rewrite Z.pow_add_r by lia. lia. }
  assert (E5 : 2 ^ (d1 - d2 + 1 - c) = 2 * 2 ^ (d1 - d2 - c)).
  { replace (d1 - d2 + 1 - c) with (1 + (d1 - d2 - c)) by lia.
    rewrite Z.pow_add_r by lia. lia. }
  assert (P2 : 0 < 2 ^ (d1 - d2 - c)) by (apply Z.pow_pos_nonneg; lia).
  destruct (Z_lt_le_dec (A * 2 ^ (- c)) (B * 2 ^ (d1 - d2 - c))) as [L|G].
  - exists (d1 - d2).
    destruct (scaled_factor A B (d1 - d2) c ltac:(lia) ltac:(lia))
      as (g & Hg & F1 & F2).
    unfold binade. split; nia.
  - exists (d1 - d2 + 1).
    destruct (scaled_factor A B (d1 - d2 + 1) c ltac:(lia) ltac:(lia))
      as (g & Hg & F1 & F2).
    unfold binade. split; nia.
Qed.

(** A quotient below [2^e], for a negative [e], is in a binade that ends
    at [e] or below. *)
Lemma binade_below A B k e :
  0 < A -> 0 < B -> e < 0 -> A * 2 ^ (- e) < B -> binade A B k -> k <= e.
Proof.
  intros HA HB He Hlt [H1 H2].
  destruct (Z_le_gt_dec k e) as [|G]; [assumption|exfalso].
  unfold scaled in *. destruct (Z.leb_spec 0 k) as [Hk|Hk]; simpl in *.
  - assert (1 <= 2 ^ k) by (pose proof (Z.pow_pos_nonneg 2 k); lia).
    assert (2 ^ 1 <= 2 ^ (- e)) by (apply Z.pow_le_mono_r; lia).
    nia.
  - assert (2 * 2 ^ (- k) <= 2 ^ (- e)).
    { replace (2 * 2 ^ (- k)) with (2 ^ (1 + - k)) by (rewrite Z.pow_add_r by lia; lia).
      apply Z.pow_le_mono_r; lia. }
    nia.
Qed.

(** The quotient of two positive integers, as [SpecFloat] rounds it. *)
Lemma round_quotient_spec s m d :
  rounds_to s (Zpos m) (Zpos d) (round_quotient s m d).
Proof.
  unfold round_quotient, SFdiv, SFdiv_core_binary. rewrite xorb_false_r.
  set (A := Zpos m). set (B := Zpos d).
  assert (HA : 0 < A) by reflexivity. assert (HB : 0 < B) by reflexivity.
  pose proof (Zdigits2_low A HA) as A1. pose proof (Zdigits2_lt A ltac:(lia)) as A2.
  pose proof (Zdigits2_low B HB) as B1. pose proof (Zdigits2_lt B ltac:(lia)) as B2.
  assert (Hd1 : 1 <= Zdigits2 A) by (simpl; lia).
  assert (Hd2 : 1 <= Zdigits2 B) by (simpl; lia).
  set (d1 := Zdigits2 A) in *. set (d2 := Zdigits2 B) in *.
  replace (d1 + 0 - (d2 + 0)) with (d1 - d2) by lia.
  change (0 - 0) with 0.
  set (e0 := Z.min (fexp prec emax (d1 - d2)) 0).
  assert (He0 : e0 <= 0) by (unfold e0; lia).
  assert (He0min : -1074 <= e0) by (unfold e0; rewrite fexp_eq; lia).
  set (m' := match 0 - e0 with
             | 0 => A | Zpos _ => Z.shiftl A (0 - e0) | Zneg _ => 0 end).
  assert (Hm' : m' = A * 2 ^ (- e0)).
  { unfold m'. destruct (0 - e0) as [|p|p] eqn:E; try lia.
    - replace (- e0) with 0 by lia. lia.
    - rewrite Z.shiftl_mul_pow2 by lia. now replace (- e0) with (Zpos p) by lia. }
  clearbody m'.
  assert (P0 : 0 < 2 ^ (- e0)) by (apply Z.pow_pos_nonneg; lia).
  pose proof (Z_div_mod m' B ltac:(lia)) as DM.
  destruct (Z.div_eucl m' B) as [q r]. destruct DM as [DM1 DM2].
  assert (Hq : 0 <= q) by nia.
  assert (Hr : r = m' - q * B) by lia.
  pose proof (Zdigits2_nonneg q) as Hdq.
  (* the exponent of the quotient is not above that of its last place *)
  assert (Hcase : (fexp prec emax (d1 - d2) = -1074 /\ e0 = -1074) \/
                  (e0 <= d1 - d2 - 53 /\ 2 ^ (d1 - d2 - 1 - e0) <= q)).
  { destruct (Z_le_gt_dec (d1 - d2 - 53) (-1074)) as [L|G].
    - left. unfold e0. rewrite fexp_eq. lia.
    - right. assert (E0 : e0 <= d1 - d2 - 53) by (unfold e0; rewrite fexp_eq; lia).
      split; [exact E0|].
      assert (E1 : 2 ^ (d1 - 1) * 2 ^ (- e0) = 2 ^ (d1 - d2 - 1 - e0) * 2 ^ d2).
      { rewrite <- !Z.pow_add_r by lia. f_equal. lia. }
      assert (P : 0 < 2 ^ (d1 - d2 - 1 - e0)) by (apply Z.pow_pos_nonneg; lia).
      nia. }
  assert (Hexp : e0 <= fexp prec emax (Zdigits2 q + e0)).
  { destruct Hcase as [[_ ->]|[E0 Hq2]]; [rewrite fexp_eq; lia|].
    pose proof (Zdigits2_ge q (d1 - d2 - 1 - e0) ltac:(lia) Hq2).
    rewrite fexp_eq. lia. }
  destruct (binary_round_aux_spec s q e0 (new_location B r) m' B Hq)
    as (n2 & Hn & Hf); [rewrite Hr; apply located_of_loc; lia|exact Hexp|].
  set (e' := fexp prec emax (Zdigits2 q + e0)) in *.
  destruct (scaled_factor A B e' e0 He0 Hexp) as (g & Hg & F1 & F2).
  assert (Hne : nearest_even (fst (scaled A B e')) (snd (scaled A B e')) n2).
  { apply (nearest_even_scale _ _ g); [exact Hg|].
    rewrite <- F1, <- F2, <- Hm'. now rewrite (Z.mul_comm B). }
  (* the binade of the quotient *)
  assert (Hk : exists k, binade A B k /\ fexp prec emax k = e').
  { destruct (Z.eq_dec q 0) as [Eq|Nq].
    - destruct Hcase as [[_ E0]|[E0 Hq2]].
      + destruct (binade_exists A B HA HB) as [k Hk]. exists k. split; [exact Hk|].
        assert (k <= e0).
        { apply (binade_below A B k e0); first [exact Hk | lia | nia]. }
        unfold e'. subst q. simpl Zdigits2. rewrite !fexp_eq. lia.
      + pose proof (Z.pow_pos_nonneg 2 (d1 - d2 - 1 - e0) ltac:(lia) ltac:(lia)). lia.
    - exists (Zdigits2 q + e0). split; [|reflexivity].
      assert (Hqpos : 0 < q) by lia.
      pose proof (Zdigits2_low q Hqpos) as Q1.
      pose proof (Zdigits2_lt q Hq) as Q2.
      assert (1 <= Zdigits2 q) by (destruct q; simpl in *; lia).
      destruct (scaled_factor A B (Zdigits2 q + e0) e0 He0 ltac:(lia))
        as (h & Hh & G1 & G2).
      replace (Zdigits2 q + e0 - e0) with (Zdigits2 q) in G2 by lia.
      assert (Q3 : 2 ^ Zdigits2 q = 2 * 2 ^ (Zdigits2 q - 1)).
      { replace (Zdigits2 q) with (1 + (Zdigits2 q - 1)) at 1 by lia.
        rewrite Z.pow_add_r by lia. lia. }
      unfold binade. split; nia. }
  destruct Hk as (k & Hk & Ek).
  exists k, n2. rewrite Ek. split; [exact Hk|]. split; [exact Hne|].
  exact Hf.
Qed.

(** [int / int]: the quotient rounded once, or [OverflowError] when the
    rounded quotient is beyond binary64. *)
Lemma int_truediv_rounds a b :
  a <> 0 -> b <> 0 ->
  exists f,
    rounds_to (xorb (a <? 0) (b <? 0)) (Z.abs a) (Z.abs b) f /\
    int_truediv a b
    = match f with
      | S754_infinity _ => Raise OverflowError
      | _ => Ok (VFloat f)
      end.
Proof.
  intros Ha Hb. unfold int_truediv.
  destruct b as [|b|b]; [easy| |]; (destruct a as [|a|a]; [easy| |]);
    match goal with
    | |- context [round_quotient ?s ?m ?d] =>
        exists (round_quotient s m d); split;
          [apply (round_quotient_spec s m d)|now destruct (round_quotient s m d)]
    end.
Qed.

End Rounding.

(** The refutation of C8 as it is stated: [div] produces no result on the
    integers 1 and 0, where it raises [ZeroDivisionError], nor on [2^1024]
    and 1, where the quotient is beyond binary64 and it raises
    [OverflowError]. *)
Lemma div_zero_or_huge_raises :
  fst (run 3 "(div 1 0)" initial_state) = Raise ZeroDivisionError /\
  fst (call_builtin BDiv [VInt (2 ^ 1024); VInt 1] initial_state)
    = Raise OverflowError.
Proof. split; vm_compute; reflexivity. Qed.

(** C8, amended.  [div] is [op.truediv]: on two [int]s it never returns an
    [int].  It raises [ZeroDivisionError] when the divisor is 0.  When the
    divisor is not 0, the result is the exact quotient rounded once to
    binary64, to nearest and to even on a tie, with the sign of the
    quotient: a zero of the sign of the divisor when the dividend is 0,
    and [OverflowError] when the rounded magnitude is [2^1024] or more,
    which does not happen for a dividend below [2^1023] in absolute value.
    1 by 2 is the [float] 0.5, 7 by 2 is 3.5, and 6 by 3 is the [float]
    2.0. *)
Theorem div_returns_float :
  forall (a b : Z) (st : state),
    standard_table !! "div" = Some (VBuiltin BDiv) /\
    (forall z, fst (call_builtin BDiv [VInt a; VInt b] st) <> Ok (VInt z)) /\
    (b = 0%Z ->
     call_builtin BDiv [VInt a; VInt b] st = (Raise ZeroDivisionError, st)) /\
    (b <> 0%Z -> a = 0%Z ->
     call_builtin BDiv [VInt a; VInt b] st
     = (Ok (VFloat (S754_zero (b <? 0)%Z)), st)) /\
    (b <> 0%Z -> a <> 0%Z ->
     exists f,
       rounds_to (xorb (a <? 0)%Z (b <? 0)%Z) (Z.abs a) (Z.abs b) f /\
       call_builtin BDiv [VInt a; VInt b] st
       = (match f with
          | S754_infinity _ => Raise OverflowError
          | _ => Ok (VFloat f)
          end, st)) /\
    (b <> 0%Z -> (Z.abs a < 2 ^ 1023)%Z ->
     exists f, call_builtin BDiv [VInt a; VInt b] st = (Ok (VFloat f), st)) /\
    call_builtin BDiv [VInt 1; VInt 2] st = (Ok (VFloat half), st) /\
    float_is half 1 2 /\
    (exists f, call_builtin BDiv [VInt 7; VInt 2] st = (Ok (VFloat f), st)
               /\ float_is f 7 2) /\
    (exists f, call_builtin BDiv [VInt 6; VInt 3] st = (Ok (VFloat f), st)
               /\ float_is f 2 1).
Proof.
  intros a b st.
  assert (E : call_builtin BDiv [VInt a; VInt b] st = (int_truediv a b, st))
    by reflexivity.
  split; [reflexivity|]. rewrite E.
  split; [|split; [|split; [|split; [|split; [|repeat split]]]]].
  - intros z. simpl.
    now destruct (int_truediv_cases a b) as [[? ->]|[[? ->]|[? [f ->]]]].
  - intros ->. now destruct a.
  - intros Hb ->. now destruct b.
  - intros Hb Ha. destruct (int_truediv_rounds a b Ha Hb) as (f & Hf & ->).
    now exists f.
  - intros Hb Ha. destruct (int_truediv_float a b Hb Ha) as [f ->]. eauto.
  - eexists. split; [vm_compute; reflexivity|reflexivity].
  - eexists. split; [vm_compute; reflexivity|reflexivity].
Qed.

(** C8, amended, on 7 and 2. *)
Lemma div_returns_float_witness :
  exists f, call_builtin BDiv [VInt 7; VInt 2] initial_state
            = (Ok (VFloat f), initial_state).
Proof.
  apply (div_returns_float 7 2 initial_state);
    [discriminate|vm_compute; reflexivity].
Defined.

(** * The tokenizer *)

Lemma split_from_tokens_from s : forall cur,
  split_from cur (replace ")" " ) " (replace "(" " ( " s)) = tokens_from cur s.
Proof.
  induction s as [|c s IH]; intros cur; [reflexivity|].
  cbn [replace tokens_from]. unfold is_paren.
  destruct (Ascii.eqb c "(") eqn:E1.
  { apply Ascii.eqb_eq in E1. subst c. simpl. rewrite IH. now destruct cur. }
  cbn [replace]. destruct (Ascii.eqb c ")") eqn:E2.
  { apply Ascii.eqb_eq in E2. subst c. simpl. rewrite IH. now destruct cur. }
  cbn [split_from orb]. destruct (isspace c); rewrite IH; now destruct cur.
Qed.

Lemma tokenize_one_pass chars : tokenize chars = tokens_from None chars.
Proof. apply split_from_tokens_from. Qed.

Lemma plain_snoc t c :
  plain (t ++ String c "") = plain t && negb (isspace c) && negb (is_paren c).
Proof.
  induction t as [|a t IH]; simpl.
  - now rewrite andb_true_r.
  - rewrite IH. now rewrite !andb_assoc.
Qed.

Lemma snoc_not_empty t c : t ++ String c "" <> "".
Proof. now destruct t. Qed.

Lemma tokens_from_ok s : forall cur,
  (forall t, cur = Some t -> t <> "" /\ plain t = true) ->
  Forall token_ok (tokens_from cur s).
Proof.
  assert (F : forall cur, (forall t, cur = Some t -> t <> "" /\ plain t = true) ->
                          Forall token_ok (flush cur)).
  { intros [t|] H; constructor; [|constructor]. right; right. now apply H. }
  induction s as [|c s IH]; intros cur Hc; [now apply F|].
  cbn [tokens_from]. destruct (is_paren c) eqn:Ep.
  - apply Forall_app. split; [now apply F|]. constructor; [|now apply IH].
    unfold is_paren in Ep. apply orb_true_iff in Ep as [E|E];
      apply Ascii.eqb_eq in E; subst; [now left|now right; left].
  - destruct (isspace c) eqn:Es.
    + apply Forall_app. split; [now apply F|now apply IH].
    + apply IH. intros t [= <-]. split; [apply snoc_not_empty|].
      rewrite plain_snoc, Es, Ep, !andb_true_r.
      destruct cur as [t|]; [now apply Hc|reflexivity].
Qed.

(** X1.  Every token that [tokenize] returns is a parenthesis alone or a
    run of characters that is not empty and holds neither a space nor a
    parenthesis: no token is empty, and a parenthesis is never part of a
    longer token. *)
Theorem tokenize_tokens_ok chars : Forall token_ok (tokenize chars).
Proof. rewrite tokenize_one_pass. now apply tokens_from_ok. Qed.

Lemma isspace_not_paren c : isspace c = true -> is_paren c = false.
Proof.
  intros H. unfold is_paren.
  destruct (Ascii.eqb c "(") eqn:E1; [apply Ascii.eqb_eq in E1; now subst|].
  destruct (Ascii.eqb c ")") eqn:E2; [apply Ascii.eqb_eq in E2; now subst|].
  reflexivity.
Qed.

Lemma tokens_from_app_paren a c b : is_paren c = true -> forall cur,
  tokens_from cur (a ++ String c b)
  = (tokens_from cur a ++ String c "" :: tokens_from None b)%list.
Proof.
  intros Hc. induction a as [|x a IH]; intros cur.
  - simpl. now rewrite Hc.
  - change (String x a ++ String c b) with (String x (a ++ String c b)).
    cbn [tokens_from]. rewrite !IH.
    destruct (is_paren x), (isspace x); try reflexivity; now rewrite <- app_assoc.
Qed.

Lemma tokens_from_app_space a c b : isspace c = true -> forall cur,
  tokens_from cur (a ++ String c b)
  = (tokens_from cur a ++ tokens_from None b)%list.
Proof.
  intros Hc. induction a as [|x a IH]; intros cur.
  - simpl. now rewrite (isspace_not_paren c Hc), Hc.
  - change (String x a ++ String c b) with (String x (a ++ String c b)).
    cbn [tokens_from]. rewrite !IH.
    destruct (is_paren x), (isspace x); try reflexivity; now rewrite <- app_assoc.
Qed.

Lemma tokenize_app_space a c b :
  isspace c = true ->
  tokenize (a ++ String c b) = (tokenize a ++ tokenize b)%list.
Proof. intros H. rewrite !tokenize_one_pass. now apply tokens_from_app_space. Qed.

(** X2.  A space and a parenthesis separate, whatever is around them: the
    tokens of a text cut at such a character [c] are the tokens of what is
    before [c], then [c] itself when it is a parenthesis, then the tokens of
    what is after [c]. *)
Theorem tokenize_app a c b :
  isspace c = true \/ is_paren c = true ->
  tokenize (a ++ String c b)
  = (tokenize a ++ (if is_paren c then [String c ""] else [])
       ++ tokenize b)%list.
Proof.
  intros [H|H].
  - rewrite (isspace_not_paren c H). now apply tokenize_app_space.
  - rewrite H, !tokenize_one_pass. now apply tokens_from_app_paren.
Qed.

(** X2 on the text [(f x)] cut at its space. *)
Lemma tokenize_app_witness :
  tokenize ("(f" ++ String " " "x)")
  = (tokenize "(f" ++ (if is_paren " " then [String " " ""] else [])
       ++ tokenize "x)")%list.
Proof. apply (tokenize_app "(f" " " "x)"). left. reflexivity. Defined.

Lemma tokens_from_read_program s : forall cur,
  tokens_from cur (read_program_from_file s) = tokens_from cur s.
Proof.
  unfold read_program_from_file.
  induction s as [|c s IH]; intros cur; [reflexivity|].
  cbn [replace]. destruct (Ascii.eqb c "010") eqn:E.
  - apply Ascii.eqb_eq in E. subst c. simpl. now rewrite IH.
  - cbn [tokens_from]. now rewrite !IH.
Qed.

(** X3.  The replacement of the line ends by spaces that
    [read_program_from_file] makes changes neither the tokens of the
    program nor what running it does: [split()] takes a line end for a
    space already. *)
Theorem newlines_are_spaces fuel data :
  tokenize (read_program_from_file data) = tokenize data /\
  forall st, run fuel (read_program_from_file data) st = run fuel data st.
Proof.
  assert (E : tokenize (read_program_from_file data) = tokenize data)
    by (rewrite !tokenize_one_pass; apply tokens_from_read_program).
  split; [exact E|]. intros st. unfold run, parse. now rewrite E.
Qed.

(** * The reader *)

Local Open Scope list_scope.

Lemma bind_eq {A B} (m : M A) (k : A -> M B) st :
  bind m k st =
  match m st with
  | (Ok a, st') => k a st'
  | (Raise e, st') => (Raise e, st')
  | (OutOfFuel, st') => (OutOfFuel, st')
  | (Dangling, st') => (Dangling, st')
  | (Unmodelled, st') => (Unmodelled, st')
  end.
Proof. reflexivity. Qed.

Lemma frame_refl base st : frame base st st.
Proof. now repeat split. Qed.

Lemma frame_trans base st st1 st2 :
  frame base st st1 -> frame base st1 st2 -> frame base st st2.
Proof.
  intros (E1 & L1 & F1) (E2 & L2 & F2). repeat split.
  - congruence.
  - lia.
  - intros l Hl. rewrite F2, F1; auto.
Qed.

Lemma frame_le base base' st st' :
  base' <= base -> frame base st st' -> frame base' st st'.
Proof. intros H (E & L & F). repeat split; auto. intros l Hl. apply F. lia. Qed.

Lemma read_list_sound (read : list string -> M (value * list string)) :
  (forall toks st, frame (length (lists st)) st (snd (read toks st)) /\
                   (toks <> [] -> loop_outcome (fst (read toks st)))) ->
  forall k L tokens st,
    L < length (lists st) ->
    frame L st (snd (read_list read k L tokens st)) /\
    loop_outcome (fst (read_list read k L tokens st)).
Proof.
  intros Hread. induction k as [|k IH]; intros L tokens st HL.
  { split; [apply frame_refl|exact I]. }
  destruct tokens as [|t0 rest]; [split; [apply frame_refl|exact I]|].
  simpl read_list. destruct (String.eqb t0 ")").
  { split; [apply frame_refl|exact I]. }
  destruct (Hread (t0 :: rest) st) as [F O]. specialize (O ltac:(discriminate)).
  rewrite bind_eq.
  destruct (read (t0 :: rest) st) as [[[v tokens']| | | |] st1];
    simpl in F, O; try (split; [eapply frame_le, F; lia|exact O]).
  assert (HL1 : L < length (lists st1)) by (destruct F as (_ & ? & _); lia).
  destruct (lookup_lt_is_Some_2 _ _ HL1) as [xs Hxs].
  rewrite bind_eq. unfold list_append. rewrite bind_eq, (get_list_ok _ _ _ Hxs).
  cbn [set_list].
  set (st2 := State (<[L := (xs ++ [v])%list]> (lists st1)) (envs st1)).
  assert (F2 : frame L st1 st2).
  { repeat split; simpl; [now rewrite length_insert|].
    intros l Hl. apply list_lookup_insert_ne. lia. }
  destruct (IH L tokens' st2) as [F3 O3].
  { simpl. now rewrite length_insert. }
  split; [|exact O3].
  eapply frame_trans; [eapply frame_le, F; lia|].
  eapply frame_trans; eassumption.
Qed.

Lemma read_from_tokens_sound fuel : forall tokens st,
  frame (length (lists st)) st (snd (read_from_tokens fuel tokens st)) /\
  reader_outcome tokens (fst (read_from_tokens fuel tokens st)).
Proof.
  induction fuel as [|n IH]; intros tokens st.
  { split; [apply frame_refl|exact I]. }
  destruct tokens as [|token tokens]; [split; [apply frame_refl|now left]|].
  simpl read_from_tokens. destruct (String.eqb token "(").
  - unfold bind, alloc_list.
    set (st1 := State (lists st ++ [[]]) (envs st)).
    assert (F1 : frame (length (lists st)) st st1).
    { repeat split; simpl; [rewrite length_app; lia|].
      intros l Hl. now apply lookup_app_l. }
    destruct (read_list_sound (read_from_tokens n)) with
      (k := n) (L := length (lists st)) (tokens := tokens) (st := st1) as [F O].
    + intros toks st'. destruct (IH toks st') as [F' O']. split; [exact F'|].
      intros Hne. destruct (fst (read_from_tokens n toks st')) as [|[]| | |];
        simpl in *; try easy. now destruct O' as [[_ ?]|?].
    + simpl. rewrite length_app. simpl. lia.
    + split; [eapply frame_trans; eassumption|].
      destruct (fst (read_list _ n _ tokens st1)) as [|[]| | |];
        simpl in *; try easy. now right.
  - destruct (String.eqb token ")"); (split; [apply frame_refl|]);
      [now right|exact I].
Qed.

(** X4.  Whatever its outcome, [parse] only creates list objects: the
    environments are as they were, no list object is gone, and every list
    object that was there holds what it held. *)
Theorem parse_frame program st :
  frame (length (lists st)) st (snd (parse program st)).
Proof.
  unfold parse. rewrite bind_eq.
  pose proof (read_from_tokens_sound (S (length (tokenize program)))
                (tokenize program) st) as [F _].
  now destruct (read_from_tokens _ _ st) as [[[x r]| | | |] st1].
Qed.

(** X5.  The outcomes of [parse].  It returns an expression, raises
    [SyntaxError] or raises [IndexError], and its budget always suffices.
    The message is 'unexpected EOF' exactly on the texts that have no
    token; on a text that has a token the only errors are 'unexpected )'
    and [IndexError]. *)
Theorem parse_outcomes program st :
  match fst (parse program st) with
  | Ok _ => tokenize program <> []
  | Raise (SyntaxError msg) =>
      (msg = "unexpected EOF" /\ tokenize program = []) \/
      (msg = "unexpected )" /\ tokenize program <> [])
  | Raise IndexError => tokenize program <> []
  | _ => False
  end.
Proof.
  pose proof (parse_total program st) as T. revert T.
  unfold parse. rewrite bind_eq.
  pose proof (read_from_tokens_sound (S (length (tokenize program)))
                (tokenize program) st) as [_ O].
  destruct (tokenize program) as [|t ts] eqn:E.
  { intros _. simpl. now left. }
  destruct (read_from_tokens _ _ st) as [[[x r]| [] | | |] st1];
    simpl in *; intros T; try easy.
  destruct O as [[_ ?]|?]; [easy|now right].
Qed.

Lemma read_list_prefix (read : list string -> M (value * list string)) more :
  (forall toks st v rest st',
      read toks st = (Ok (v, rest), st') ->
      read (toks ++ more)%list st = (Ok (v, rest ++ more), st')) ->
  forall k L toks st v rest st',
    read_list read k L toks st = (Ok (v, rest), st') ->
    read_list read k L (toks ++ more)%list st = (Ok (v, rest ++ more), st').
Proof.
  intros Hread. induction k as [|k IH]; intros L toks st v rest st' H;
    [discriminate|].
  destruct toks as [|t0 r]; [discriminate|].
  change ((t0 :: r) ++ more)%list with (t0 :: (r ++ more)%list).
  simpl read_list in *. destruct (String.eqb t0 ")").
  { now injection H as <- <- <-. }
  rewrite bind_eq in H. rewrite bind_eq.
  destruct (read (t0 :: r) st) as [[[v0 toks1]| | | |] st1] eqn:E;
    try discriminate.
  change (t0 :: (r ++ more)%list) with ((t0 :: r) ++ more)%list.
  rewrite (Hread _ _ _ _ _ E).
  rewrite bind_eq in H. rewrite bind_eq.
  destruct (list_append L v0 st1) as [[[]| | | |] st2]; try discriminate.
  now apply IH.
Qed.

Lemma read_from_tokens_prefix more fuel : forall toks st v rest st',
  read_from_tokens fuel toks st = (Ok (v, rest), st') ->
  read_from_tokens fuel (toks ++ more)%list st = (Ok (v, rest ++ more), st').
Proof.
  induction fuel as [|n IH]; intros toks st v rest st' H; [discriminate|].
  destruct toks as [|token toks]; [discriminate|].
  change ((token :: toks) ++ more)%list with (token :: (toks ++ more)%list).
  simpl read_from_tokens in *. destruct (String.eqb token "(").
  - rewrite bind_eq in H. rewrite bind_eq.
    destruct (alloc_list [] st) as [[L| | | |] st1]; try discriminate.
    now apply (read_list_prefix (read_from_tokens n) more IH).
  - destruct (String.eqb token ")"); [discriminate|].
    now injection H as <- <- <-.
Qed.

Lemma read_list_mono_read (read read' : list string -> M (value * list string)) :
  (forall toks, refines (read toks) (read' toks)) ->
  forall k L toks, refines (read_list read k L toks) (read_list read' k L toks).
Proof.
  intros H. induction k as [|k IH]; intros L toks; [apply refines_refl|].
  destruct toks as [|t0 r]; [apply refines_refl|]. simpl.
  destruct (String.eqb t0 ")"); [apply refines_refl|].
  apply refines_bind; [apply H|]. intros [v toks'].
  apply refines_bind; [apply refines_refl|]. intros _. apply IH.
Qed.

Lemma read_list_mono_turns (read : list string -> M (value * list string)) :
  forall k L toks, refines (read_list read k L toks) (read_list read (S k) L toks).
Proof.
  induction k as [|k IH]; intros L toks; [now intros st H|].
  destruct toks as [|t0 r]; [apply refines_refl|].
  change (refines
    (if String.eqb t0 ")" then ret (VList L, r)
     else let* (v, tokens') := read (t0 :: r) in
          let* _ := list_append L v in read_list read k L tokens')
    (if String.eqb t0 ")" then ret (VList L, r)
     else let* (v, tokens') := read (t0 :: r) in
          let* _ := list_append L v in read_list read (S k) L tokens')).
  destruct (String.eqb t0 ")"); [apply refines_refl|].
  apply refines_bind; [apply refines_refl|]. intros [v toks'].
  apply refines_bind; [apply refines_refl|]. intros _. apply IH.
Qed.

Lemma read_from_tokens_mono n : forall toks,
  refines (read_from_tokens n toks) (read_from_tokens (S n) toks).
Proof.
  induction n as [|n IH]; intros toks; [now intros st H|].
  destruct toks as [|token toks]; [apply refines_refl|].
  change (refines
    (if String.eqb token "(" then
       let* L := alloc_list [] in read_list (read_from_tokens n) n L toks
     else if String.eqb token ")" then raise (SyntaxError "unexpected )")
     else ret (atom token, toks))
    (if String.eqb token "(" then
       let* L := alloc_list [] in read_list (read_from_tokens (S n)) (S n) L toks
     else if String.eqb token ")" then raise (SyntaxError "unexpected )")
     else ret (atom token, toks))).
  destruct (String.eqb token "("); [|apply refines_refl].
  apply refines_bind; [apply refines_refl|]. intros L.
  eapply refines_trans; [apply read_list_mono_read, IH|apply read_list_mono_turns].
Qed.

Lemma read_from_tokens_more n k toks st :
  fst (read_from_tokens n toks st) <> OutOfFuel ->
  read_from_tokens (n + k) toks st = read_from_tokens n toks st.
Proof.
  intros H. induction k as [|k IH]; [now rewrite Nat.add_0_r|].
  rewrite Nat.add_succ_r, <- IH. apply read_from_tokens_mono. now rewrite IH.
Qed.

(** X6.  [parse] reads one expression and drops the tokens that follow
    it: when it returns [x] on the text [a], it returns the same [x] and
    the same stores on [a] followed by a space and any text [b], well
    formed or not. *)
Theorem parse_ignores_rest a c b st x st' :
  isspace c = true ->
  parse a st = (Ok x, st') ->
  parse (a ++ String c b)%string st = (Ok x, st').
Proof.
  intros Hc. unfold parse.
  rewrite (tokenize_app_space a c b Hc).
  rewrite !bind_eq.
  destruct (read_from_tokens (S (length (tokenize a))) (tokenize a) st)
    as [[[v r]| | | |] st1] eqn:E; try discriminate.
  intros [= <- <-].
  apply (read_from_tokens_prefix (tokenize b)) in E.
  rewrite length_app.
  replace (S (length (tokenize a) + length (tokenize b)))
    with (S (length (tokenize a)) + length (tokenize b)) by lia.
  rewrite read_from_tokens_more; now rewrite E.
Qed.


(** X6 on the text [(a)] followed by [ ) b]. *)
Lemma parse_ignores_rest_witness :
  parse ("(a)" ++ String " " ") b")%string initial_state
  = (Ok (VList 0), State [[VStr "a"]] [standard_env]).
Proof.
  apply (parse_ignores_rest "(a)" " " ") b"); [reflexivity|].
  vm_compute. reflexivity.
Defined.

(** ** The tree that the reader builds *)

Lemma sexp_ind' (P : sexp -> Prop) :
  (forall t, P (Atom t)) -> (forall es, Forall P es -> P (SList es)) ->
  forall e, P e.
Proof.
  intros Ha Hl. fix IH 1. intros [t|es]; [apply Ha|]. apply Hl.
  induction es as [|e es IHes]; constructor; [apply IH|exact IHes].
Qed.

Lemma denotes_list lo hi st es v :
  denotes lo hi st (SList es) v <->
  exists l vs, v = VList l /\ lo <= l < hi /\ lists st !! l = Some vs /\
               Forall2 (denotes lo hi st) es vs.
Proof.
  simpl. split; intros (l & vs & Hv & Hl & Hs & H); exists l, vs;
    (repeat split; [exact Hv|apply Hl|apply Hl|exact Hs|]); clear Hs.
  - revert vs H. induction es as [|e es IH]; intros [|v' vs] H; try easy;
      constructor; [apply H|apply IH, H].
  - induction H; [exact I|]. now split.
Qed.

Lemma denotes_weaken lo hi lo' hi' st st' e : forall v,
  lo' <= lo -> hi <= hi' ->
  (forall l, lo <= l < hi -> lists st' !! l = lists st !! l) ->
  denotes lo hi st e v -> denotes lo' hi' st' e v.
Proof.
  intros v Hlo Hhi Hagree. revert v.
  induction e as [t|es IH] using sexp_ind'; intros v H; [exact H|].
  apply denotes_list in H as (l & vs & -> & Hl & Hs & H).
  apply denotes_list. exists l, vs. repeat split; try lia.
  - now rewrite Hagree.
  - clear Hs. induction H as [|e v es vs Hev H IH2]; constructor.
    + apply Forall_cons in IH as [IHe _]. now apply IHe.
    + apply Forall_cons in IH as [_ IHes]. now apply IH2.
Qed.

Lemma tokens_of_head e :
  sexp_ok e = true ->
  exists t ts, tokens_of e = t :: ts /\ String.eqb t ")" = false.
Proof.
  destruct e as [t|es]; simpl; intros H.
  - exists t, []. split; [reflexivity|].
    apply andb_true_iff in H as [_ H]. now apply negb_true_iff in H.
  - eexists _, _. split; reflexivity.
Qed.

Lemma tokens_of_length e : 1 <= length (tokens_of e).
Proof. destruct e; simpl; lia. Qed.

Lemma concat_tokens_length es :
  length es <= length (concat (map tokens_of es)) /\
  Forall (fun e => length (tokens_of e) <= length (concat (map tokens_of es))) es.
Proof.
  induction es as [|e es [IH1 IH2]]; simpl; [split; [lia|constructor]|].
  rewrite length_app. pose proof (tokens_of_length e). split; [lia|].
  constructor; [lia|]. eapply Forall_impl; [exact IH2|]. simpl. intros; lia.
Qed.

Lemma read_list_tree (read : list string -> M (value * list string)) es :
  Forall (fun e => sexp_ok e = true /\ reads read e) es ->
  forall k L more st acc,
    length es < k -> lists st !! L = Some acc ->
    exists vs st',
      read_list read k L (concat (map tokens_of es) ++ ")" :: more) st
        = (Ok (VList L, more), st') /\
      lists st' !! L = Some (acc ++ vs) /\
      Forall2 (denotes (S L) (length (lists st')) st') es vs /\
      envs st' = envs st /\ length (lists st) <= length (lists st') /\
      (forall l, l <> L -> l < length (lists st) ->
                 lists st' !! l = lists st !! l).
Proof.
  induction 1 as [|e es [Hok He] _ IH]; intros k L more st acc Hk HL;
    (destruct k as [|k]; [lia|]).
  - exists [], st. simpl. rewrite app_nil_r. now repeat split.
  - simpl in Hk. cbn [map concat]. rewrite <- app_assoc.
    destruct (tokens_of_head e Hok) as (t & ts & Et & Ht).
    destruct (He (concat (map tokens_of es) ++ ")" :: more) st)
      as (v & st1 & Hr & Hd & (E1 & L1 & F1)).
    assert (HL0 : L < length (lists st)) by (now apply lookup_lt_Some in HL).
    assert (HL1 : lists st1 !! L = Some acc) by (now rewrite F1).
    set (st2 := State (<[L := acc ++ [v]]> (lists st1)) (envs st1)).
    destruct (IH k L more st2 (acc ++ [v])) as (vs & st' & Hl & HLv & Hds & E3 & L3 & F3).
    { lia. }
    { simpl. apply list_lookup_insert_eq. lia. }
    exists (v :: vs), st'.
    assert (Len2 : length (lists st2) = length (lists st1))
      by (simpl; now rewrite length_insert).
    repeat split.
    + revert Hr. rewrite Et. intros Hr. cbn [app] in Hr.
      cbn [app read_list]. rewrite Ht.
      rewrite bind_eq, Hr. unfold list_append.
      rewrite bind_eq, bind_eq, (get_list_ok _ _ _ HL1). exact Hl.
    + now rewrite <- app_assoc in HLv.
    + constructor; [|exact Hds].
      apply (denotes_weaken (length (lists st)) (length (lists st1))
               (S L) (length (lists st')) st1); [lia|lia| |exact Hd].
      intros l Hl'. rewrite F3 by lia. simpl.
      apply list_lookup_insert_ne. lia.
    + now rewrite E3.
    + lia.
    + intros l Hne Hl'. rewrite F3 by lia. simpl.
      rewrite list_lookup_insert_ne by lia. apply F1. lia.
Qed.

Lemma read_from_tokens_tree e :
  sexp_ok e = true ->
  forall fuel, length (tokens_of e) <= fuel -> reads (read_from_tokens fuel) e.
Proof.
  induction e as [t|es IH] using sexp_ind'; intros Hok fuel Hf more st;
    (destruct fuel as [|n]; [simpl in Hf; lia|]).
  - exists (atom t), st. simpl in Hok.
    apply andb_true_iff in Hok as [H1 H2].
    apply negb_true_iff in H1, H2. simpl. rewrite H1, H2.
    repeat split; auto.
  - simpl in Hf. rewrite length_app in Hf. simpl in Hf.
    destruct (concat_tokens_length es) as [C1 C2].
    set (st1 := State (lists st ++ [[]]) (envs st)).
    destruct (read_list_tree (read_from_tokens n) es) with
      (k := n) (L := length (lists st)) (more := more) (st := st1)
      (acc := @nil value) as (vs & st' & Hl & HLv & Hds & E3 & L3 & F3).
    + simpl in Hok. rewrite forallb_forall in Hok.
      rewrite Forall_forall in IH, C2. apply Forall_forall. intros e He.
      apply list_elem_of_In in He.
      split; [now apply Hok|]. apply IH; [now apply list_elem_of_In|now apply Hok|].
      specialize (C2 e (proj2 (list_elem_of_In _ _) He)). simpl in C2. lia.
    + lia.
    + simpl. rewrite lookup_app_r by lia. now rewrite Nat.sub_diag.
    + exists (VList (length (lists st))), st'.
      assert (Len1 : length (lists st1) = S (length (lists st)))
        by (simpl; rewrite length_app; simpl; lia).
      repeat split.
      * cbn [tokens_of app read_from_tokens]. rewrite <- app_assoc. exact Hl.
      * apply denotes_list. exists (length (lists st)), vs.
        repeat split; try lia; [exact HLv|].
        eapply Forall2_impl; [exact Hds|]. intros e v.
        apply denotes_weaken; auto; lia.
      * now rewrite E3.
      * lia.
      * intros l Hl'. rewrite F3 by lia. simpl. now apply lookup_app_l.
Qed.

(** X7.  The reader rebuilds the expression that is written.  On a text
    whose tokens are those of the expression [e], followed by any tokens
    [more], [parse] returns a value that is the tree of [e]: an atom is
    [atom] of its token, a parenthesised sequence is a list object created
    by this call that holds the trees of its elements in their order.  The
    stores that were there are unchanged. *)
Theorem parse_tree program e more st :
  sexp_ok e = true ->
  tokenize program = tokens_of e ++ more ->
  exists v st',
    parse program st = (Ok v, st') /\
    denotes (length (lists st)) (length (lists st')) st' e v /\
    frame (length (lists st)) st st'.
Proof.
  intros Hok Ht. unfold parse. rewrite Ht.
  destruct (read_from_tokens_tree e Hok (S (length (tokens_of e ++ more))))
    with (more := more) (st := st) as (v & st' & Hr & Hd & F).
  { rewrite length_app. lia. }
  exists v, st'. rewrite bind_eq, Hr. split; [reflexivity|now split].
Qed.


(** X7 on the text [(a (b 1) ())]. *)
Lemma parse_tree_witness :
  let e := SList [Atom "a"; SList [Atom "b"; Atom "1"]; SList []] in
  exists v st',
    parse "(a (b 1) ())" initial_state = (Ok v, st') /\
    denotes (length (lists initial_state)) (length (lists st')) st' e v /\
    frame (length (lists initial_state)) initial_state st'.
Proof.
  intros e. apply (parse_tree "(a (b 1) ())" e [] initial_state);
    vm_compute; reflexivity.
Defined.

(** * Scopes *)

Lemma Env_find_state n : forall e var st,
  snd (Env_find n e var st) = st.
Proof.
  induction n as [|n IH]; intros e var st; [reflexivity|].
  simpl. rewrite bind_eq. unfold get_env.
  destruct (envs st !! e) as [o|]; [|reflexivity].
  destruct (table o !! var); [reflexivity|].
  destruct (outer o); [apply IH|reflexivity].
Qed.

Lemma Env_find_sound n : forall e var st r st',
  Env_find n e var st = (Ok r, st') -> nearest st var e r.
Proof.
  induction n as [|n IH]; intros e var st r st' H; [discriminate|].
  simpl in H. rewrite bind_eq in H. unfold get_env in H.
  destruct (envs st !! e) as [o|] eqn:Ee; [|discriminate].
  destruct (table o !! var) as [v|] eqn:Ev.
  - injection H as <- <-. eapply nearest_here; eassumption.
  - destruct (outer o) as [e'|] eqn:Eo; [|discriminate].
    eapply nearest_outer; eauto.
Qed.

Lemma Env_find_complete st var e r :
  nearest st var e r -> exists d, forall n, d <= n ->
    Env_find n e var st = (Ok r, st).
Proof.
  induction 1 as [e o v He Hv|e o e' r He Hv Ho _ [d IH]].
  - exists 1. intros [|n] Hn; [lia|]. eapply Env_find_here; eassumption.
  - exists (S d). intros [|n] Hn; [lia|].
    eapply Env_find_outer; try eassumption. apply IH. lia.
Qed.

(** X9.  [Env.find] changes no store, and, given enough depth, it returns
    [r] exactly when [r] is the first scope that binds [var] on the way
    from [e] to the root. *)
Theorem Env_find_nearest st var e r :
  (forall n, snd (Env_find n e var st) = st) /\
  ((exists n, Env_find n e var st = (Ok r, st)) <-> nearest st var e r).
Proof.
  split; [intros n; apply Env_find_state|]. split.
  - intros [n H]. eapply Env_find_sound, H.
  - intros H. destruct (Env_find_complete _ _ _ _ H) as [d Hd].
    exists d. now apply Hd.
Qed.

(** [find] is not affected by the value that a scope gives to a name it
    binds. *)
Lemma Env_find_assigned n : forall x var st e o v w,
  Env_find n x var st = (Ok e, st) -> envs st !! e = Some o ->
  table o !! var = Some w ->
  Env_find n x var (assigned e o var v st) = (Ok e, assigned e o var v st).
Proof.
  induction n as [|n IH]; intros x var st e o v w H He Hw; [discriminate|].
  simpl in H |- *. rewrite bind_eq in H. rewrite bind_eq. unfold get_env in *.
  destruct (envs st !! x) as [ox|] eqn:Ex; [|discriminate].
  unfold assigned at 1. cbn [envs].
  destruct (decide (x = e)) as [->|Hne].
  - rewrite list_lookup_insert_eq by (now apply lookup_lt_Some in He).
    cbn [table]. now rewrite lookup_insert_eq.
  - rewrite list_lookup_insert_ne by congruence. unfold loc in *. rewrite Ex.
    destruct (table ox !! var).
    + injection H as <-. contradiction.
    + destruct (outer ox); [|discriminate]. eapply IH; eassumption.
Qed.

(** X11.  For a symbol [var] other than [->], [(define var exp)] returns
    [None] and binds [var] in the current scope to the value of [exp]:
    afterwards [var] evaluates there to that
    value, whatever the enclosing scopes bind; the list objects, the other
    environments, the outer scope and the other names of the current scope
    are as the evaluation of [exp] left them. *)
Theorem define_then_lookup n l var exp env st v st1 o :
  lists st !! l = Some [VStr "define"; VStr var; exp] ->
  var <> "->" ->
  eval n exp env st = (Ok v, st1) ->
  envs st1 !! env = Some o ->
  let st2 := assigned env o var v st1 in
  eval (S n) (VList l) env st = (Ok VNone, st2) /\
  (forall m, eval (S (S m)) (VStr var) env st2 = (Ok v, st2)) /\
  lists st2 = lists st1 /\
  (forall e, e <> env -> envs st2 !! e = envs st1 !! e) /\
  (exists o2, envs st2 !! env = Some o2 /\ outer o2 = outer o /\
              forall k, k <> var -> table o2 !! k = table o !! k).
Proof.
  intros Hl Hne He Ho st2.
  assert (Ho2 : envs st2 !! env
                = Some (MkEnv (<[var := v]> (table o)) (outer o))).
  { simpl. apply list_lookup_insert_eq. now apply lookup_lt_Some in Ho. }
  repeat split.
  - now apply (eval_define n l var exp env st v st1 o).
  - intros m. eapply eval_symbol_found; [eapply Env_find_here| |];
      first [exact Ho2 | simpl; apply lookup_insert_eq].
  - intros e Hne'. simpl. apply list_lookup_insert_ne. congruence.
  - eexists. split; [exact Ho2|]. split; [reflexivity|].
    intros k Hk. simpl. now apply lookup_insert_ne.
Qed.

(** X11 on [(define x 1)] at start-up. *)
Lemma define_then_lookup_witness :
  let st := State [[VStr "define"; VStr "x"; VInt 1]] [standard_env] in
  let st2 := assigned global_env standard_env "x" (VInt 1) st in
  eval 2 (VList 0) global_env st = (Ok VNone, st2) /\
  (forall m, eval (S (S m)) (VStr "x") global_env st2 = (Ok (VInt 1), st2)) /\
  lists st2 = lists st /\
  (forall e, e <> global_env -> envs st2 !! e = envs st !! e) /\
  (exists o2, envs st2 !! global_env = Some o2 /\
              outer o2 = outer standard_env /\
              forall k, k <> "x" -> table o2 !! k = table standard_env !! k).
Proof.
  intros st.
  apply (define_then_lookup 1 0 "x" (VInt 1) global_env st (VInt 1) st
           standard_env); [reflexivity|discriminate|reflexivity..].
Defined.

(** X12.  For a symbol [var] other than [->], [(set! var exp)] returns
    [None] and gives the value of [exp] to [var] in the nearest scope [e]
    that binds it, as seen from the current
    scope after [exp] is evaluated: afterwards [var] evaluates to that
    value in the current scope; the scope [e] binds the same names, the
    other names keep their values, and the list objects and the other
    environments are unchanged. *)
Theorem set_then_lookup n l var exp env st v st1 e o w :
  lists st !! l = Some [VStr "set!"; VStr var; exp] ->
  var <> "->" ->
  eval n exp env st = (Ok v, st1) ->
  Env_find n env var st1 = (Ok e, st1) ->
  envs st1 !! e = Some o -> table o !! var = Some w ->
  let st2 := assigned e o var v st1 in
  eval (S n) (VList l) env st = (Ok VNone, st2) /\
  eval (S n) (VStr var) env st2 = (Ok v, st2) /\
  lists st2 = lists st1 /\
  (forall x, x <> e -> envs st2 !! x = envs st1 !! x) /\
  (exists o2, envs st2 !! e = Some o2 /\ outer o2 = outer o /\
              dom (table o2) = dom (table o) /\
              forall k, k <> var -> table o2 !! k = table o !! k).
Proof.
  intros Hl Hne He Hf Ho Hw st2.
  assert (Ho2 : envs st2 !! e
                = Some (MkEnv (<[var := v]> (table o)) (outer o))).
  { simpl. apply list_lookup_insert_eq. now apply lookup_lt_Some in Ho. }
  repeat split.
  - now apply (eval_set n l var exp env st v st1 e o).
  - eapply eval_symbol_found;
      [eapply Env_find_assigned; eassumption|exact Ho2|].
    simpl. apply lookup_insert_eq.
  - intros x Hx. simpl. apply list_lookup_insert_ne. congruence.
  - eexists. split; [exact Ho2|]. split; [reflexivity|]. split.
    + simpl. rewrite dom_insert_L.
      apply subseteq_union_1_L, singleton_subseteq_l, elem_of_dom. eauto.
    + intros k Hk. simpl. now apply lookup_insert_ne.
Qed.


(** X12 on [(set! x 2)] in an empty scope below the scope that binds
    [x]. *)
Lemma set_then_lookup_witness :
  let o := MkEnv {["x" := VInt 1]} None in
  let st := State [[VStr "set!"; VStr "x"; VInt 2]] [o; MkEnv ∅ (Some 0)] in
  let st2 := assigned 0 o "x" (VInt 2) st in
  eval 3 (VList 0) 1 st = (Ok VNone, st2) /\
  eval 3 (VStr "x") 1 st2 = (Ok (VInt 2), st2) /\
  lists st2 = lists st /\
  (forall x, x <> 0 -> envs st2 !! x = envs st !! x) /\
  (exists o2, envs st2 !! 0 = Some o2 /\ outer o2 = outer o /\
              dom (table o2) = dom (table o) /\
              forall k, k <> "x" -> table o2 !! k = table o !! k).
Proof.
  intros o st.
  apply (set_then_lookup 2 0 "x" (VInt 2) 1 st (VInt 2) st 0 o (VInt 1));
    [reflexivity|discriminate|reflexivity..].
Defined.

(** * What evaluation keeps *)

Lemma extends_refl st : extends st st.
Proof. split; intros ? ? H; eexists; (split; [exact H|]); [reflexivity|now split]. Qed.

Lemma extends_trans st1 st2 st3 :
  extends st1 st2 -> extends st2 st3 -> extends st1 st3.
Proof.
  intros [L1 E1] [L2 E2]. split.
  - intros l xs H. destruct (L1 _ _ H) as (xs1 & H1 & P1).
    destruct (L2 _ _ H1) as (xs2 & H2 & P2). exists xs2. split; [exact H2|].
    now rewrite P2.
  - intros e o H. destruct (E1 _ _ H) as (o1 & H1 & O1 & D1).
    destruct (E2 _ _ H1) as (o2 & H2 & O2 & D2). exists o2.
    split; [exact H2|]. split; [congruence|]. etransitivity; eassumption.
Qed.

Lemma keeps_same {A} (m : M A) : (forall st, snd (m st) = st) -> keeps m.
Proof. intros H st. rewrite H. apply extends_refl. Qed.

Lemma keeps_bind {A B} (m : M A) (k : A -> M B) :
  keeps m -> (forall a, keeps (k a)) -> keeps (bind m k).
Proof.
  intros Hm Hk st. rewrite bind_eq. specialize (Hm st).
  destruct (m st) as [[a| | | |] st1]; simpl in *; try exact Hm.
  eapply extends_trans; [exact Hm|apply Hk].
Qed.

Lemma keeps_mapM {A B} (f : A -> M B) l :
  (forall a, keeps (f a)) -> keeps (mapM f l).
Proof.
  intros Hf. induction l as [|a l IH]; simpl; [now apply keeps_same|].
  apply keeps_bind; [apply Hf|]. intros b.
  apply keeps_bind; [exact IH|]. intros bs. now apply keeps_same.
Qed.

Lemma keeps_ret {A} (a : A) : keeps (ret a).
Proof. now apply keeps_same. Qed.
Lemma keeps_raise {A} e : keeps (@raise A e).
Proof. now apply keeps_same. Qed.
Lemma keeps_lift {A} (o : outcome A) : keeps (lift o).
Proof. now apply keeps_same. Qed.

Lemma keeps_get_list l : keeps (get_list l).
Proof. apply keeps_same. intros st. unfold get_list. now destruct (lists st !! l). Qed.

Lemma keeps_get_env e : keeps (get_env e).
Proof. apply keeps_same. intros st. unfold get_env. now destruct (envs st !! e). Qed.

Lemma keeps_alloc_list vs : keeps (alloc_list vs).
Proof.
  intros st. split; simpl.
  - intros l xs H. exists xs. split; [now apply lookup_app_l_Some|reflexivity].
  - intros e o H. exists o. now repeat split.
Qed.

Lemma keeps_new_list vs : keeps (new_list vs).
Proof. apply keeps_bind; [apply keeps_alloc_list|intros; apply keeps_ret]. Qed.

Lemma keeps_new_env o : keeps (new_env o).
Proof.
  intros st. split; simpl.
  - intros l xs H. exists xs. now split.
  - intros e o' H. exists o'. split; [now apply lookup_app_l_Some|now split].
Qed.

Lemma keeps_truthy v : keeps (truthy v).
Proof. apply keeps_same. intros st. apply truthy_state. Qed.

Lemma keeps_Env_find n e var : keeps (Env_find n e var).
Proof. apply keeps_same. intros st. apply Env_find_state. Qed.

Lemma keeps_Env_getitem e var : keeps (Env_getitem e var).
Proof.
  apply keeps_bind; [apply keeps_get_env|]. intros o.
  destruct (table o !! var); [apply keeps_ret|apply keeps_lift].
Qed.

Lemma keeps_Env_setitem e var v : keeps (Env_setitem e var v).
Proof.
  intros st. unfold Env_setitem. rewrite bind_eq. unfold get_env.
  unfold loc in *.
  destruct (envs st !! e) as [o|] eqn:E; [|apply extends_refl].
  split; simpl.
  - intros l xs H. exists xs. now split.
  - intros e' o' H. destruct (decide (e' = e)) as [->|Hne].
    + rewrite list_lookup_insert_eq by (now apply lookup_lt_Some in E).
      eexists. split; [reflexivity|]. simpl. rewrite E in H. injection H as <-.
      split; [reflexivity|]. rewrite dom_insert. apply union_subseteq_r.
    + rewrite list_lookup_insert_ne by congruence. exists o'. now repeat split.
Qed.

Lemma keeps_Env_init parms args out : keeps (Env_init parms args out).
Proof.
  unfold Env_init. apply keeps_bind.
  { destruct parms; simpl; first [apply keeps_get_list|apply keeps_ret|apply keeps_raise]. }
  intros ps. apply keeps_bind; [apply keeps_lift|]. intros t. apply keeps_new_env.
Qed.

Create HintDb keep discriminated.
#[local] Hint Resolve keeps_bind keeps_mapM keeps_ret keeps_raise keeps_lift
  keeps_get_list keeps_get_env keeps_new_list keeps_new_env keeps_truthy
  keeps_Env_find keeps_Env_getitem keeps_Env_setitem keeps_Env_init : keep.

Lemma keeps_op_add x y : keeps (op_add x y).
Proof.
  unfold op_add. destruct (as_num x), (as_num y); auto with keep;
    destruct x; auto with keep; destruct y; auto 6 with keep.
Qed.

Lemma keeps_op_sub x y : keeps (op_sub x y).
Proof. unfold op_sub. destruct (as_num x), (as_num y); auto with keep. Qed.

Lemma keeps_op_mul x y : keeps (op_mul x y).
Proof.
  unfold op_mul.
  destruct (as_num x) as [[]|], (as_num y) as [[]|]; auto with keep;
    first [destruct x; now auto 6 with keep | destruct y; now auto 6 with keep].
Qed.

Lemma keeps_op_truediv x y : keeps (op_truediv x y).
Proof. unfold op_truediv. destruct (as_num x), (as_num y); auto with keep. Qed.

#[local] Hint Resolve keeps_op_add keeps_op_sub keeps_op_mul keeps_op_truediv
  : keep.

Lemma keeps_call_builtin b vals : keeps (call_builtin b vals).
Proof.
  destruct b; simpl;
    try (destruct vals as [|x [|y [|z vals]]]; now auto with keep).
  - destruct (last vals); auto with keep.
  - destruct vals as [|x [|y vals]]; auto with keep.
    destruct x as [| | | |[|]| | |]; auto 6 with keep.
    apply keeps_bind; [auto with keep|]. intros [|]; auto with keep.
  - destruct vals as [|x [|y [|z vals]]]; auto with keep.
    destruct y; auto 6 with keep.
  - destruct vals as [|x [|y vals]]; auto with keep.
    destruct x; auto 6 with keep.
  - destruct vals as [|x [|y vals]]; auto with keep.
    destruct x; auto 6 with keep.
Qed.

Lemma keeps_eval_body (ev : value -> loc -> M value)
    (find : loc -> string -> M loc) :
  (forall x env, keeps (ev x env)) -> (forall e s, keeps (find e s)) ->
  forall x env, keeps (eval_body ev find x env).
Proof.
  intros Hev Hfind x env. destruct x; try apply keeps_ret.
  - simpl. auto with keep.
  - intros st. unfold eval_body. rewrite bind_eq. unfold get_list.
    destruct (lists st !! l) as [xs|] eqn:El; [|apply extends_refl].
    destruct xs as [|op [|a0 rest]]; try apply extends_refl.
    destruct (is_sym "->" a0).
    { rewrite bind_eq. cbn [set_list].
      eapply extends_trans; [|apply Hev]. split; simpl.
      - intros l' xs H. destruct (decide (l' = l)) as [->|Hne].
        + rewrite list_lookup_insert_eq by (now apply lookup_lt_Some in El).
          eexists. split; [reflexivity|]. unfold loc in *. rewrite El in H.
          injection H as <-. apply perm_swap.
        + rewrite list_lookup_insert_ne by congruence. exists xs. now split.
      - intros e o H. exists o. now repeat split. }
    match goal with
    | |- extends st (snd (?m st)) => cut (keeps m); [intros K; apply K|]
    end.
    clear st El.
    destruct (is_sym "quote" op); [apply keeps_ret|].
    destruct (is_sym "if" op).
    { destruct rest as [|c [|a [|]]]; auto 10 with keep. }
    destruct (is_sym "define" op).
    { destruct rest as [|c [|]]; auto 10 with keep. }
    destruct (is_sym "set!" op).
    { destruct rest as [|c [|]]; auto 10 with keep. }
    destruct (is_sym "->" op).
    { destruct rest as [|c [|]]; auto with keep. }
    apply keeps_bind; [apply Hev|]. intros proc.
    apply keeps_bind; [apply keeps_mapM; intros a; apply Hev|]. intros vals.
    destruct proc; try apply keeps_raise.
    + simpl. unfold Procedure_call. auto with keep.
    + apply keeps_call_builtin.
Qed.

Lemma keeps_eval n : forall x env, keeps (eval n x env).
Proof.
  induction n as [|n IH]; intros x env; [apply keeps_lift|].
  apply (keeps_eval_body (eval n) (Env_find n)); [exact IH|].
  intros e s. apply keeps_Env_find.
Qed.

(** X13.  Evaluation frees nothing, whatever its outcome: every list
    object that was there is still there with the same elements, up to
    their order (the infix form exchanges two of them), and every
    environment is still there with the same outer scope and at least the
    names it bound. *)
Theorem eval_extends fuel x env st : extends st (snd (eval fuel x env st)).
Proof. apply keeps_eval. Qed.

(** X14.  A list whose first two elements are both the symbol [->] is
    exchanged with itself and evaluated again, without end: no budget
    suffices (in the host the recursion ends with [RecursionError]). *)
Theorem arrow_arrow_diverges l rest env st :
  lists st !! l = Some (VStr "->" :: VStr "->" :: rest) ->
  forall fuel, fst (eval fuel (VList l) env st) = OutOfFuel.
Proof.
  intros H fuel. destruct (eval_prefix_form fuel l _ _ env st H) as [-> _].
  now destruct fuel.
Qed.

(** X14 on [(-> -> x)] with a budget of 1000 calls. *)
Lemma arrow_arrow_diverges_witness :
  let st := State [[VStr "->"; VStr "->"; VStr "x"]] [standard_env] in
  fst (eval 1000 (VList 0) global_env st) = OutOfFuel.
Proof.
  intros st.
  apply (arrow_arrow_diverges 0 [VStr "x"] global_env st eq_refl 1000).
Defined.

(** X15.  The test of the infix form comes before the special forms:
    a list of three elements whose second is [->] and whose first element
    [op] is not itself the symbol [->] is a procedure literal, also when
    [op] is a keyword or a number; the parameters are [op], unevaluated,
    and the list object is left with its first two elements exchanged. *)
Theorem arrow_second_makes_procedure n l op body env st :
  lists st !! l = Some [op; VStr "->"; body] -> op <> VStr "->" ->
  eval (S (S n)) (VList l) env st
  = (Ok (VProc op body env), swapped l op [body] st).
Proof.
  intros H Hne. rewrite (eval_list _ _ _ _ _ H). simpl is_sym. cbn iota.
  apply eval_procedure; [|exact Hne].
  now apply (lookup_swapped l op [body] st _ H).
Qed.

(** X15 on [(quote -> x)]. *)
Lemma arrow_second_makes_procedure_witness :
  let st := State [[VStr "quote"; VStr "->"; VStr "x"]] [standard_env] in
  eval 2 (VList 0) global_env st
  = (Ok (VProc (VStr "quote") (VStr "x") global_env),
     swapped 0 (VStr "quote") [VStr "x"] st).
Proof.
  intros st.
  apply (arrow_second_makes_procedure 0 0 (VStr "quote") (VStr "x")
           global_env st); [reflexivity|discriminate].
Defined.

(** X16.  A procedure whose parameters are a symbol [s] where a list is
    expected binds the characters of [s], one by one, to the arguments:
    [zip] iterates over the [str]. *)
Theorem symbol_parms_bind_characters (ev : value -> loc -> M value)
    s body env args st :
  call ev (VProc (VStr s) body env) args st
  = ev body (length (envs st)) (entered (characters s) args env st).
Proof.
  simpl. unfold Procedure_call, Env_init, iter_value.
  rewrite bind_eq. unfold bind at 1, ret. rewrite bind_eq. unfold lift.
  replace (map (fun c => VStr (String c "")) (list_ascii_of_string s))
    with (map VStr (characters s))
    by (unfold characters; now rewrite map_map).
  now rewrite update_zip_names.
Qed.

(** X17.  The operands of the special forms are counted by unpacking.
    On a list that has one operand at least, the first of which is not the
    symbol [->]: [if] with other than three operands, and [define], [set!]
    and the prefix [->] with other than two, raise [ValueError] before
    anything is evaluated or changed. *)
Theorem special_form_operand_count n l op a0 rest env st :
  lists st !! l = Some (op :: a0 :: rest) -> a0 <> VStr "->" ->
  (op = VStr "if" /\ length rest <> 2) \/
  ((op = VStr "define" \/ op = VStr "set!" \/ op = VStr "->") /\ length rest <> 1) ->
  eval (S n) (VList l) env st = (Raise ValueError, st).
Proof.
  intros H Hne Hop. rewrite (eval_list _ _ _ _ _ H).
  destruct (is_sym "->" a0) eqn:E; [now apply is_sym_true in E|].
  unfold dispatch.
  destruct Hop as [[-> Hr] | [[-> | [-> | ->]] Hr]]; simpl;
    destruct rest as [|? [|? [|]]]; simpl in Hr; try lia; reflexivity.
Qed.


(** X17 on [(if 1 2)]. *)
Lemma special_form_operand_count_witness :
  let st := State [[VStr "if"; VInt 1; VInt 2]] [standard_env] in
  eval 1 (VList 0) global_env st = (Raise ValueError, st).
Proof.
  intros st.
  apply (special_form_operand_count 0 0 (VStr "if") (VInt 1) [VInt 2]
           global_env st); [reflexivity|discriminate|].
  left. split; [reflexivity|simpl; lia].
Defined.

(** * The standard environment *)

Lemma adds_same {A} (m : M A) : (forall st, snd (m st) = st) -> adds_lists m.
Proof. intros H st. rewrite H. split; [reflexivity|]. exists []. now rewrite app_nil_r. Qed.

Lemma adds_bind {A B} (m : M A) (k : A -> M B) :
  adds_lists m -> (forall a, adds_lists (k a)) -> adds_lists (bind m k).
Proof.
  intros Hm Hk st. rewrite bind_eq. specialize (Hm st).
  destruct (m st) as [[a| | | |] st1]; simpl in *; try exact Hm.
  destruct Hm as [E1 [n1 L1]]. destruct (Hk a st1) as [E2 [n2 L2]].
  split; [congruence|]. exists (n1 ++ n2). now rewrite L2, L1, app_assoc.
Qed.

Lemma adds_ret {A} (a : A) : adds_lists (ret a).
Proof. now apply adds_same. Qed.
Lemma adds_raise {A} e : adds_lists (@raise A e).
Proof. now apply adds_same. Qed.
Lemma adds_lift {A} (o : outcome A) : adds_lists (lift o).
Proof. now apply adds_same. Qed.
Lemma adds_get_list l : adds_lists (get_list l).
Proof. apply adds_same. intros st. unfold get_list. now destruct (lists st !! l). Qed.
Lemma adds_truthy v : adds_lists (truthy v).
Proof. apply adds_same. intros st. apply truthy_state. Qed.
Lemma adds_new_list vs : adds_lists (new_list vs).
Proof. intros st. split; [reflexivity|]. now exists [vs]. Qed.

Create HintDb adds discriminated.
#[local] Hint Resolve adds_bind adds_ret adds_raise adds_lift adds_get_list
  adds_truthy adds_new_list : adds.

(** X18.  The procedures of the standard environment that are embedded
    ([add], [sub], [mul], [div], [append], [begin], [fst], [cons],
    [length], [list], [not], [null?], [number?], [procedure?], [symbol?])
    change nothing that exists: whatever the arguments and the outcome,
    the environments are unchanged and the list objects that were there
    hold what they held; new list objects may follow them. *)
Theorem call_builtin_adds_lists b vals : adds_lists (call_builtin b vals).
Proof.
  destruct b; simpl.
  - destruct vals as [|x [|y [|z vals]]]; auto with adds. unfold op_add.
    destruct (as_num x), (as_num y); auto with adds;
      destruct x; auto with adds; destruct y; auto 6 with adds.
  - destruct vals as [|x [|y [|z vals]]]; auto with adds. unfold op_sub.
    destruct (as_num x), (as_num y); auto with adds.
  - destruct vals as [|x [|y [|z vals]]]; auto with adds. unfold op_mul.
    destruct (as_num x) as [[]|], (as_num y) as [[]|]; auto with adds;
      first [destruct x; now auto 6 with adds | destruct y; now auto 6 with adds].
  - destruct vals as [|x [|y [|z vals]]]; auto with adds. unfold op_truediv.
    destruct (as_num x), (as_num y); auto with adds.
  - destruct (last vals); auto with adds.
  - destruct vals as [|x [|y vals]]; auto with adds.
    destruct x as [| | | |[|]| | |]; auto 6 with adds.
    apply adds_bind; [auto with adds|]. intros [|]; auto with adds.
  - destruct vals as [|x [|y [|z vals]]]; auto with adds.
    destruct y; auto 6 with adds.
  - destruct vals as [|x [|y vals]]; auto with adds.
    destruct x; auto 6 with adds.
  - auto with adds.
  - destruct vals as [|x [|y vals]]; auto 6 with adds.
  - destruct vals as [|x [|y vals]]; auto with adds.
    destruct x; auto 6 with adds.
  - destruct vals as [|x [|y vals]]; auto with adds.
  - destruct vals as [|x [|y vals]]; auto with adds.
  - destruct vals as [|x [|y vals]]; auto with adds.
Qed.

(** X19.  [cons] builds a new list object and leaves its second argument
    as it is; on the result, [fst] is the first argument, [length] is one
    more than the length of the second, and [null?] is false. *)
Theorem cons_fst_length x k ys st :
  lists st !! k = Some ys ->
  let l := length (lists st) in
  let st' := State (lists st ++ [x :: ys]) (envs st) in
  call_builtin BCons [x; VList k] st = (Ok (VList l), st') /\
  call_builtin BFst [VList l] st' = (Ok x, st') /\
  call_builtin BLength [VList l] st' = (Ok (VInt (Z.of_nat (S (length ys)))), st') /\
  call_builtin BNull [VList l] st' = (Ok (VBool false), st') /\
  lists st' !! k = Some ys.
Proof.
  intros H l st'.
  assert (Hl : lists st' !! l = Some (x :: ys)).
  { simpl. unfold l. rewrite lookup_app_r by lia. now rewrite Nat.sub_diag. }
  repeat split.
  - simpl. now rewrite bind_eq, (get_list_ok _ _ _ H).
  - simpl. now rewrite bind_eq, (get_list_ok _ _ _ Hl).
  - simpl. now rewrite bind_eq, (get_list_ok _ _ _ Hl).
  - simpl. now rewrite bind_eq, (get_list_ok _ _ _ Hl).
  - simpl. now apply lookup_app_l_Some.
Qed.

(** X19 on [(cons 1 (quote (2 3)))]. *)
Lemma cons_fst_length_witness :
  let st := State [[VInt 2; VInt 3]] [standard_env] in
  let st' := State [[VInt 2; VInt 3]; [VInt 1; VInt 2; VInt 3]]
                   [standard_env] in
  call_builtin BCons [VInt 1; VList 0] st = (Ok (VList 1), st') /\
  call_builtin BFst [VList 1] st' = (Ok (VInt 1), st') /\
  call_builtin BLength [VList 1] st' = (Ok (VInt 3), st') /\
  call_builtin BNull [VList 1] st' = (Ok (VBool false), st') /\
  lists st' !! 0 = Some [VInt 2; VInt 3].
Proof.
  intros st st'. apply (cons_fst_length (VInt 1) 0 [VInt 2; VInt 3] st).
  reflexivity.
Defined.

(** X20.  [append] is bound to [+]: on two lists it returns a new list
    object that holds the elements of the first and then those of the
    second, whose [length] is the sum of their lengths; the two lists are
    unchanged. *)
Theorem append_concatenates a b xs ys st :
  lists st !! a = Some xs -> lists st !! b = Some ys ->
  let l := length (lists st) in
  let st' := State (lists st ++ [xs ++ ys]) (envs st) in
  standard_table !! "append" = Some (VBuiltin BAdd) /\
  call_builtin BAdd [VList a; VList b] st = (Ok (VList l), st') /\
  call_builtin BLength [VList l] st'
    = (Ok (VInt (Z.of_nat (length xs + length ys))), st') /\
  lists st' !! a = Some xs /\ lists st' !! b = Some ys.
Proof.
  intros Ha Hb l st'.
  assert (Hl : lists st' !! l = Some (xs ++ ys)).
  { simpl. unfold l. rewrite lookup_app_r by lia. now rewrite Nat.sub_diag. }
  split; [reflexivity|]. repeat split.
  - simpl. unfold op_add. simpl.
    now rewrite bind_eq, (get_list_ok _ _ _ Ha), bind_eq, (get_list_ok _ _ _ Hb).
  - simpl. rewrite bind_eq, (get_list_ok _ _ _ Hl). now rewrite length_app.
  - simpl. now apply lookup_app_l_Some.
  - simpl. now apply lookup_app_l_Some.
Qed.

(** X20 on the lists [(1)] and [(2 3)]. *)
Lemma append_concatenates_witness :
  let st := State [[VInt 1]; [VInt 2; VInt 3]] [standard_env] in
  let st' := State [[VInt 1]; [VInt 2; VInt 3]; [VInt 1; VInt 2; VInt 3]]
                   [standard_env] in
  standard_table !! "append" = Some (VBuiltin BAdd) /\
  call_builtin BAdd [VList 0; VList 1] st = (Ok (VList 2), st') /\
  call_builtin BLength [VList 2] st' = (Ok (VInt 3), st') /\
  lists st' !! 0 = Some [VInt 1] /\ lists st' !! 1 = Some [VInt 2; VInt 3].
Proof.
  intros st st'.
  apply (append_concatenates 0 1 [VInt 1] [VInt 2; VInt 3] st); reflexivity.
Defined.

(** * Atoms *)

Lemma sign_other c s :
  c <> "+"%char -> c <> "-"%char -> sign (String c s) = (false, String c s).
Proof.
  intros H1 H2.
  destruct c as [[] [] [] [] [] [] [] []]; try reflexivity; congruence.
Qed.

(** X8.  A token, that is a run of characters without a space or a
    parenthesis, that starts with no digit, sign or dot, and that is no
    spelling of [inf], [infinity] or [nan] in either case, is a symbol:
    [atom] returns the token itself.  (The host's [int] and [float] strip
    the spaces around their argument, which a token does not have.) *)
Theorem atom_symbol c s :
  plain (String c s) = true ->
  digit c = None -> c <> "+"%char -> c <> "-"%char -> c <> "."%char ->
  lower_string (String c s) <> "inf" ->
  lower_string (String c s) <> "infinity" ->
  lower_string (String c s) <> "nan" ->
  atom (String c s) = VStr (String c s).
Proof.
  intros _ Hd Hp Hm Hdot Hi Hy Hn.
  unfold atom, py_int, py_float. rewrite (sign_other c s Hp Hm).
  cbn [digitpart]. rewrite Hd.
  apply String.eqb_neq in Hi, Hy, Hn. rewrite Hi, Hy, Hn. cbn [orb].
  replace (decimal (String c s)) with (@None (Z * Z)); [reflexivity|].
  unfold decimal.
  destruct c as [[] [] [] [] [] [] [] []]; try congruence;
    cbn [digitpart]; now rewrite Hd.
Qed.

(** X8 on the token [x1]. *)
Lemma atom_symbol_witness : atom "x1" = VStr "x1".
Proof.
  apply (atom_symbol "x" "1"); [reflexivity|reflexivity|discriminate..].
Defined.

(** * Symbols *)

(** X10.  A symbol evaluates to the value that the nearest scope binding
    it gives it, the stores unchanged, once the budget covers the depth of
    that scope. *)
Theorem eval_symbol_nearest st var env r o v :
  nearest st var env r -> envs st !! r = Some o -> table o !! var = Some v ->
  exists d, forall n, d <= n -> eval (S n) (VStr var) env st = (Ok v, st).
Proof.
  intros Hn Ho Hv. destruct (Env_find_complete _ _ _ _ Hn) as [d Hd].
  exists d. intros n Hle. eapply eval_symbol_found; eauto.
Qed.

(** X10 on a name bound at the root and read from an empty scope below
    it. *)
Lemma eval_symbol_nearest_witness :
  let st := State [] [MkEnv {["x" := VInt 1]} None; MkEnv ∅ (Some 0)] in
  exists d, forall n, d <= n ->
    eval (S n) (VStr "x") 1 st = (Ok (VInt 1), st).
Proof.
  intros st.
  apply (eval_symbol_nearest st "x" 1 0 (MkEnv {["x" := VInt 1]} None)
           (VInt 1)); [|reflexivity|reflexivity].
  apply (nearest_outer st "x" 1 (MkEnv ∅ (Some 0)) 0 0);
    [reflexivity..|].
  apply (nearest_here st "x" 0 (MkEnv {["x" := VInt 1]} None) (VInt 1));
    reflexivity.
Defined.

(** * Calls *)

Lemma mapM_app_raise {A B} (f : A -> M B) pre a post : forall st vs st1 e st2,
  mapM f pre st = (Ok vs, st1) -> f a st1 = (Raise e, st2) ->
  mapM f (pre ++ a :: post) st = (Raise e, st2).
Proof.
  induction pre as [|p pre IH]; intros st vs st1 e st2 Hp Ha.
  - injection Hp as <- <-. now apply mapM_raise.
  - simpl in Hp |- *. rewrite bind_eq in Hp. rewrite bind_eq.
    destruct (f p st) as [[b| | | |] st']; try discriminate.
    rewrite bind_eq in Hp. rewrite bind_eq.
    destruct (mapM f pre st') as [[bs| | | |] st''] eqn:E; try discriminate.
    injection Hp as <- <-. now rewrite (IH _ _ _ _ _ E Ha).
Qed.

Lemma mapM_length {A B} (f : A -> M B) l : forall st vs st',
  mapM f l st = (Ok vs, st') -> length vs = length l.
Proof.
  induction l as [|a l IH]; intros st vs st' H.
  - now injection H as <- <-.
  - simpl in H. rewrite bind_eq in H.
    destruct (f a st) as [[b| | | |] st1]; try discriminate.
    rewrite bind_eq in H.
    destruct (mapM f l st1) as [[bs| | | |] st2] eqn:E; try discriminate.
    injection H as <- <-. simpl. f_equal. eapply IH, E.
Qed.

(** X21.  The operands of a call are evaluated from the left, after the
    operator: the first operand that raises ends the evaluation with its
    exception and with the stores as the operator, the operands before it
    and the operand itself left them; the operands after it are not
    evaluated and nothing is called. *)
Theorem operands_left_to_right n l op a0 rest pre a post env st proc st1 vs st2 e st3 :
  lists st !! l = Some (op :: a0 :: rest) ->
  a0 <> VStr "->" -> special op = false ->
  a0 :: rest = pre ++ a :: post ->
  eval n op env st = (Ok proc, st1) ->
  mapM (fun arg => eval n arg env) pre st1 = (Ok vs, st2) ->
  eval n a env st2 = (Raise e, st3) ->
  eval (S n) (VList l) env st = (Raise e, st3).
Proof.
  intros Hl Hne Hop Hsplit Hp Hpre Ha.
  eapply eval_call_raise; try eassumption.
  - destruct (is_sym "->" a0) eqn:E; [now apply is_sym_true in E|reflexivity].
  - rewrite Hsplit.
    now apply (mapM_app_raise (fun arg => eval n arg env) pre a post st1 vs st2).
Qed.

(** X21 on [(list 1 y 2)] at start-up, where [y] is unbound. *)
Lemma operands_left_to_right_witness :
  let st := State [[VStr "list"; VInt 1; VStr "y"; VInt 2]] [standard_env] in
  eval 3 (VList 0) global_env st = (Raise AttributeError, st).
Proof.
  intros st.
  apply (operands_left_to_right 2 0 (VStr "list") (VInt 1)
           [VStr "y"; VInt 2] [VInt 1] (VStr "y") [VInt 2] global_env st
           (VBuiltin BList) st [VInt 1] st AttributeError st);
    [reflexivity|discriminate|reflexivity..].
Defined.

(** X22.  When the operator evaluates to a value that cannot be called, a
    number or a list for instance, [TypeError] is raised only after all
    the operands are evaluated, and their effects on the stores remain. *)
Theorem call_non_callable n l op a0 rest env st proc st1 vals st2 :
  lists st !! l = Some (op :: a0 :: rest) ->
  a0 <> VStr "->" -> special op = false ->
  eval n op env st = (Ok proc, st1) ->
  mapM (fun arg => eval n arg env) (a0 :: rest) st1 = (Ok vals, st2) ->
  callable proc = false ->
  eval (S n) (VList l) env st = (Raise TypeError, st2).
Proof.
  intros Hl Hne Hop Hp Hv Hc.
  erewrite eval_call; try eassumption.
  - now destruct proc.
  - destruct (is_sym "->" a0) eqn:E; [now apply is_sym_true in E|reflexivity].
Qed.

(** X22 on [(1 2)]. *)
Lemma call_non_callable_witness :
  let st := State [[VInt 1; VInt 2]] [standard_env] in
  eval 2 (VList 0) global_env st = (Raise TypeError, st).
Proof.
  intros st.
  apply (call_non_callable 1 0 (VInt 1) (VInt 2) [] global_env st
           (VInt 1) st [VInt 2] st);
    [reflexivity|discriminate|reflexivity..].
Defined.

(** X23.  [begin] returns the value of its last operand, all operands
    having been evaluated in order. *)
Theorem begin_returns_last n l op a0 rest env st st1 vals st2 :
  lists st !! l = Some (op :: a0 :: rest) ->
  a0 <> VStr "->" -> special op = false ->
  eval n op env st = (Ok (VBuiltin BBegin), st1) ->
  mapM (fun arg => eval n arg env) (a0 :: rest) st1 = (Ok vals, st2) ->
  exists v, last vals = Some v /\
            eval (S n) (VList l) env st = (Ok v, st2).
Proof.
  intros Hl Hne Hop Hp Hv.
  pose proof (mapM_length _ _ _ _ _ Hv) as Len.
  destruct (last vals) as [v|] eqn:E.
  - exists v. split; [reflexivity|].
    erewrite eval_call; try eassumption.
    + simpl. now rewrite E.
    + destruct (is_sym "->" a0) eqn:E'; [now apply is_sym_true in E'|reflexivity].
  - apply last_None in E. subst vals. discriminate.
Qed.

(** X23 on [(begin 1 2)] at start-up. *)
Lemma begin_returns_last_witness :
  let st := State [[VStr "begin"; VInt 1; VInt 2]] [standard_env] in
  exists v, last [VInt 1; VInt 2] = Some v /\
            eval 3 (VList 0) global_env st = (Ok v, st).
Proof.
  intros st.
  apply (begin_returns_last 2 0 (VStr "begin") (VInt 1) [VInt 2] global_env
           st st [VInt 1; VInt 2] st);
    [reflexivity|discriminate|reflexivity..].
Defined.

Lemma foldl_insert_app (t : gmap string value) l1 l2 :
  foldl (fun t kv => <[kv.1 := kv.2]> t) t (l1 ++ l2)
  = foldl (fun t kv => <[kv.1 := kv.2]> t)
          (foldl (fun t kv => <[kv.1 := kv.2]> t) t l1) l2.
Proof. apply foldl_app. Qed.

(** X24.  When a name appears more than once among the parameters, the
    scope of the call binds it to the argument of its last occurrence that
    has an argument. *)
Theorem last_parameter_wins l ps p qs args a bs out st :
  lists st !! l = Some (map VStr (ps ++ p :: qs)) ->
  length ps = length args ->
  p ∉ take (length bs) qs ->
  exists o,
    Env_init (VList l) (args ++ a :: bs) out st
      = (Ok (length (envs st)), State (lists st) (envs st ++ [o])) /\
    table o !! p = Some a /\ outer o = out.
Proof.
  intros Hl Hlen Hp. eexists. split.
  - unfold Env_init, iter_value.
    rewrite bind_eq, (get_list_ok _ _ _ Hl), bind_eq. unfold lift.
    rewrite update_zip_names. reflexivity.
  - split; [|reflexivity]. cbn [table].
    rewrite zip_with_app by exact Hlen. rewrite foldl_app. simpl.
    rewrite foldl_insert_other by exact Hp. apply lookup_insert_eq.
Qed.

(** X24 on the parameters [(x x)] and the arguments 1 and 2. *)
Lemma last_parameter_wins_witness :
  let st := State [[VStr "x"; VStr "x"]] [standard_env] in
  exists o,
    Env_init (VList 0) [VInt 1; VInt 2] (Some global_env) st
      = (Ok 1, State (lists st) (envs st ++ [o])) /\
    table o !! "x" = Some (VInt 2) /\ outer o = Some global_env.
Proof.
  intros st.
  apply (last_parameter_wins 0 ["x"] "x" [] [VInt 1] (VInt 2) []
           (Some global_env) st); [reflexivity|reflexivity|].
  apply not_elem_of_nil.
Defined.

(** * What the reader accepts, and quotation *)

Lemma read_list_parsed (read : list string -> M (value * list string)) :
  (forall toks st v rest st', read toks st = (Ok (v, rest), st') ->
     exists e, sexp_ok e = true /\ toks = tokens_of e ++ rest) ->
  forall k L toks st v rest st',
    read_list read k L toks st = (Ok (v, rest), st') ->
    exists es, forallb sexp_ok es = true /\
               toks = concat (map tokens_of es) ++ ")" :: rest.
Proof.
  intros Hread. induction k as [|k IH]; intros L toks st v rest st' H;
    [discriminate|].
  destruct toks as [|t0 r]; [discriminate|]. simpl in H.
  destruct (String.eqb t0 ")") eqn:E.
  - apply String.eqb_eq in E. subst t0. injection H as <- <- <-.
    now exists [].
  - rewrite bind_eq in H.
    destruct (read (t0 :: r) st) as [[[v0 toks1]| | | |] st1] eqn:Er;
      try discriminate.
    rewrite bind_eq in H.
    destruct (list_append L v0 st1) as [[[]| | | |] st2]; try discriminate.
    destruct (Hread _ _ _ _ _ Er) as (e & Hok & He).
    destruct (IH _ _ _ _ _ _ H) as (es & Hoks & Hes).
    exists (e :: es). split; [simpl; now rewrite Hok|].
    simpl. rewrite <- app_assoc, <- Hes. exact He.
Qed.

Lemma read_from_tokens_parsed fuel : forall toks st v rest st',
  read_from_tokens fuel toks st = (Ok (v, rest), st') ->
  exists e, sexp_ok e = true /\ toks = tokens_of e ++ rest.
Proof.
  induction fuel as [|n IH]; intros toks st v rest st' H; [discriminate|].
  destruct toks as [|token toks]; [discriminate|]. simpl in H.
  destruct (String.eqb token "(") eqn:E1.
  - apply String.eqb_eq in E1. subst token. rewrite bind_eq in H.
    destruct (alloc_list [] st) as [[L| | | |] st1]; try discriminate.
    destruct (read_list_parsed (read_from_tokens n) IH _ _ _ _ _ _ _ H)
      as (es & Hok & Hes).
    exists (SList es). split; [exact Hok|]. simpl. rewrite <- app_assoc.
    now rewrite Hes.
  - destruct (String.eqb token ")") eqn:E2; [discriminate|].
    injection H as <- <- <-. exists (Atom token). simpl. now rewrite E1, E2.
Qed.

(** X25.  [parse] returns only on a text that starts with a well-formed
    expression: when it returns [v], the tokens of the text are those of an
    expression [e], whose atoms are no parentheses, followed by tokens that
    are not read, and [v] is the tree of [e] in list objects created by
    this call. *)
Theorem parse_complete program st v st' :
  parse program st = (Ok v, st') ->
  exists e more,
    sexp_ok e = true /\ tokenize program = tokens_of e ++ more /\
    denotes (length (lists st)) (length (lists st')) st' e v.
Proof.
  unfold parse. rewrite bind_eq.
  destruct (read_from_tokens _ (tokenize program) st)
    as [[[x r]| | | |] st1] eqn:E; try discriminate.
  intros [= <- <-].
  destruct (read_from_tokens_parsed _ _ _ _ _ _ E) as (e & Hok & He).
  exists e, r. split; [exact Hok|]. split; [exact He|].
  destruct (read_from_tokens_tree e Hok (S (length (tokenize program))))
    with (more := r) (st := st) as (v' & st'' & Hr & Hd & _).
  { rewrite He, length_app. lia. }
  rewrite <- He, E in Hr. now injection Hr as <- <-.
Qed.

(** X25 on the text [(a b)]. *)
Lemma parse_complete_witness :
  let st' := State [[VStr "a"; VStr "b"]] [standard_env] in
  exists e more,
    sexp_ok e = true /\ tokenize "(a b)" = tokens_of e ++ more /\
    denotes (length (lists initial_state)) (length (lists st')) st' e
      (VList 0).
Proof.
  intros st'. apply (parse_complete "(a b)" initial_state (VList 0) st').
  vm_compute. reflexivity.
Defined.

Lemma atom_str t s : atom t = VStr s -> s = t.
Proof.
  unfold atom. destruct (py_int t); [discriminate|].
  destruct (py_float t); [discriminate|]. now intros [= <-].
Qed.

(** X26.  Reading and evaluating [(quote e)] returns the tree of the
    expression [e] as it is written, unevaluated, for every expression [e]
    other than the symbol [->] and with any budget of one call at least;
    what follows in the text is not read, and the stores that were there
    are unchanged. *)
Theorem quote_returns_written program e more st :
  sexp_ok e = true -> e <> Atom "->" ->
  tokenize program = tokens_of (SList [Atom "quote"; e]) ++ more ->
  exists v st',
    (forall n, run (S n) program st = (Ok v, st')) /\
    denotes (length (lists st)) (length (lists st')) st' e v /\
    frame (length (lists st)) st st'.
Proof.
  intros Hok Hne Ht.
  destruct (read_from_tokens_tree (SList [Atom "quote"; e]))
    with (fuel := S (length (tokenize program))) (more := more) (st := st)
    as (x & st' & Hr & Hd & F).
  { simpl. now rewrite Hok. }
  { rewrite Ht, length_app. lia. }
  apply denotes_list in Hd as (l & vs & -> & Hl & Hvs & Hall).
  apply Forall2_cons_inv_l in Hall as (vq & vs1 & Hq & Hall & ->).
  apply Forall2_cons_inv_l in Hall as (ve & vs2 & He & Hall & ->).
  apply Forall2_nil_inv_l in Hall as ->.
  simpl in Hq. subst vq.
  exists ve, st'. split; [|now split].
  rewrite <- Ht in Hr.
  intros n. unfold run, parse. rewrite bind_eq, bind_eq, Hr.
  cbn [ret]. rewrite (eval_list _ _ _ _ _ Hvs).
  replace (is_sym "->" ve) with false; [reflexivity|].
  symmetry. destruct (is_sym "->" ve) eqn:E; [|reflexivity].
  apply is_sym_true in E. subst ve. exfalso. apply Hne.
  destruct e as [t|es].
  - simpl in He. symmetry in He. apply atom_str in He. now subst t.
  - apply denotes_list in He as (? & ? & [=] & _).
Qed.


(** X26 on the text [(quote (a 1))]. *)
Lemma quote_returns_written_witness :
  let e := SList [Atom "a"; Atom "1"] in
  exists v st',
    (forall n, run (S n) "(quote (a 1))" initial_state = (Ok v, st')) /\
    denotes (length (lists initial_state)) (length (lists st')) st' e v /\
    frame (length (lists initial_state)) initial_state st'.
Proof.
  intros e.
  apply (quote_returns_written "(quote (a 1))" e [] initial_state);
    [reflexivity|discriminate|vm_compute; reflexivity].
Defined.
